(** * NetKet sampler bindings (Sampler/pysampler.hpp)

    A shallow embedding of [AddSamplerModule]: the pybind11 registration of
    the abstract [Sampler] class and of its ten concrete variants, together
    with the part of pybind11's call dispatcher that decides how a Python
    call of a class, with positional and keyword arguments, reaches a C++
    constructor.

    Layout:
    - [Cpp]           C++ types named by the bindings;
    - [Py]            Python values and pybind11's registration records;
    - [Binding]       the builder calls [class_], [def], [init], [arg] and
                      the macro [ADDSAMPLERMETHODS];
    - [Sampler]       [AddSamplerModule] itself;
    - [Dispatch]      type casters and the overload dispatcher;
    - [Core]          the sampler constructors that live in other headers;
    - [Netket]        what a Python caller does with the module;
    - [DispatchFacts], [SamplerFacts]   lemmas on the dispatcher and on the
                      registered module;
    - [Surface], [Constructors], [Construction]   the properties. *)

From Stdlib Require Import ZArith QArith.
From stdpp Require Import gmap strings list fin_maps.

Set Warnings "-register-all".

Local Open Scope string_scope.
Local Open Scope list_scope.

(* ===================================================================== *)
(** ** C++ side *)
(* ===================================================================== *)

Module Cpp.

(** The classes the header names.  The sampler templates are instantiated
    once each ([MetropolisLocal<AbMachineType>],
    [MetropolisHamiltonian<AbMachineType, AbstractOperator>], ...), so a
    template is identified with its single instantiation. *)
Inductive class : Set :=
  | AbSamplerType
  | AbMachineType
  | AbstractGraph
  | AbstractOperator
  | MetropolisLocal
  | MetropolisLocalPt
  | MetropolisHop
  | MetropolisHamiltonian
  | MetropolisHamiltonianPt
  | MetropolisExchange
  | MetropolisExchangePt
  | ExactSampler
  | CustomSampler
  | CustomSamplerPt.

#[global] Instance class_eq_dec : EqDecision class.
Proof. solve_decision. Defined.

(** Parameter types as written in [py::init<...>]. *)
Inductive type : Set :=
  | Int                      (* int *)
  | Double                   (* double *)
  | MatType                  (* DerSampler::MatType, a dense matrix *)
  | Vector (t : type)        (* std::vector<t> *)
  | Class (c : class)
  | Ref (t : type)           (* t & *)
  | ConstRef (t : type).     (* const t & *)

(** Member functions of a sampler class that the macro takes the address
    of. *)
Inductive member : Set := Reset | Sweep | Visible | SetVisible | Acceptance.

#[global] Instance member_eq_dec : EqDecision member.
Proof. solve_decision. Defined.

(** Values handed to C++ after conversion. *)
Inductive value : Type :=
  | VInt (z : Z)
  | VDouble (q : Q)
  | VMat (id : nat)
  | VVec (l : list value)
  | VObj (c : class) (id : nat).

Definition INT_MIN : Z := - 2 ^ 31.
Definition INT_MAX : Z := 2 ^ 31 - 1.

End Cpp.

(* ===================================================================== *)
(** ** Python side *)
(* ===================================================================== *)

Module Py.

(** Python objects a caller can pass.  [Instance c id] is an instance of
    the Python class bound to the C++ class [c], wrapping the C++ object
    [id]; [Matrix id] stands for an array convertible to [MatType]. *)
Inductive object : Type :=
  | None_
  | Int_ (z : Z)
  | Float_ (q : Q)
  | Str_ (s : string)
  | List_ (l : list object)
  | Matrix_ (id : nat)
  | Instance (c : Cpp.class) (id : nat).

(** [py::arg("name")] and [py::arg("name") = value].  The default is kept
    as the Python object it was cast to at registration time. *)
Record arg : Type := mk_arg {
  arg_name  : string;
  arg_value : option object;
  arg_none  : bool             (* may [None] be passed *)
}.

(** What a [.def] binds a Python name to. *)
Inductive callable : Type :=
  | Method (c : Cpp.class) (m : Cpp.member)     (* &c::m *)
  | Init (ts : list Cpp.type).                  (* py::init<ts...>() *)

(** pybind11's [function_record]: one overload. *)
Record function_record : Type := mk_function_record {
  fr_name  : string;
  fr_impl  : callable;
  fr_scope : Cpp.class;                (* the class it was defined on *)
  fr_args  : list arg                  (* annotations, [self] included *)
}.

(** A bound class: its C++ type, the registered parent, the Python name and
    the class dictionary (name to overload chain, in definition order). *)
Record class_ : Type := mk_class {
  cl_type  : Cpp.class;
  cl_base  : option Cpp.class;
  cl_name  : string;
  cl_dict  : list (string * list function_record)
}.

(** A module is the list of the classes registered in it, oldest first. *)
Definition module : Type := list class_.

Inductive exception : Set :=
  | AttributeError                   (* the module has no such name *)
  | TypeError_NoConstructor          (* "No constructor defined!" *)
  | TypeError_IncompatibleArguments. (* no overload accepted the call *)

End Py.

(* ===================================================================== *)
(** ** The builder calls of pybind11 used by the header *)
(* ===================================================================== *)

Module Binding.
Import Py.

(** [py::arg("name")]: a named parameter with no default.  pybind11 lets
    [None] through for every [py::arg]. *)
Definition arg (name : string) : Py.arg := mk_arg name None true.

(** [py::arg("name") = v], with [v] already cast to Python. *)
Definition arg_v (name : string) (v : object) : Py.arg :=
  mk_arg name (Some v) true.

Notation "a '=:' v" := (arg_v a v) (at level 30, no associativity).

(** The implicit first annotation of a method: [process_attribute<arg>]
    pushes ["self"] when the first [py::arg] of a method is processed. *)
Definition self_arg : Py.arg := mk_arg "self" None false.

Definition process_attributes (extra : list Py.arg) : list Py.arg :=
  match extra with
  | [] => []
  | _ :: _ => self_arg :: extra
  end.

(** [py::class_<t>(subm, name)] and [py::class_<t, base>(subm, name)]. *)
Definition class_ (t : Cpp.class) (base : option Cpp.class) (name : string)
  : Py.class_ :=
  mk_class t base name [].

(** Adding an overload to a class dictionary: an existing entry of the same
    class is extended (the sibling chain), otherwise a new entry is made.
    Entries of a parent class are never extended, they are hidden. *)
Fixpoint add_overload (name : string) (f : function_record)
    (d : list (string * list function_record))
  : list (string * list function_record) :=
  match d with
  | [] => [(name, [f])]
  | (n, chain) :: d' =>
      if String.eqb n name then (n, chain ++ [f]) :: d'
      else (n, chain) :: add_overload name f d'
  end.

(** [.def(name, f, extra...)]. *)
Definition def (name : string) (f : callable) (extra : list Py.arg)
    (c : Py.class_) : Py.class_ :=
  let rec := mk_function_record name f (cl_type c)
                                (process_attributes extra) in
  mk_class (cl_type c) (cl_base c) (cl_name c)
           (add_overload name rec (cl_dict c)).

(** [.def(py::init<ts...>(), extra...)] defines ["__init__"]. *)
Definition def_init (ts : list Cpp.type) (extra : list Py.arg)
    (c : Py.class_) : Py.class_ :=
  def "__init__" (Init ts) extra c.

Notation "c '|>' f" := (f c) (at level 45, left associativity, only parsing).

(** The macro [ADDSAMPLERMETHODS(name)]. *)
Definition ADDSAMPLERMETHODS (name : Cpp.class) (c : Py.class_)
  : Py.class_ :=
  c |> def "reset" (Method name Cpp.Reset) []
    |> def "sweep" (Method name Cpp.Sweep) []
    |> def "get_visible" (Method name Cpp.Visible) []
    |> def "set_visible" (Method name Cpp.SetVisible) []
    |> def "acceptance" (Method name Cpp.Acceptance) [].

Definition find_class (m : module) (t : Cpp.class) : option Py.class_ :=
  List.find (fun c => bool_decide (cl_type c = t)) m.

Definition find_name (m : module) (name : string) : option Py.class_ :=
  List.find (fun c => String.eqb (cl_name c) name) m.

(** Entering a finished class into the submodule.  pybind11 aborts the
    import when the C++ type is already registered or when the parent type
    is not registered yet. *)
Definition register (c : Py.class_) (m : module) : option module :=
  match find_class m (cl_type c) with
  | Some _ => None
  | None =>
      match cl_base c with
      | None => Some (m ++ [c])
      | Some b =>
          match find_class m b with
          | Some _ => Some (m ++ [c])
          | None => None
          end
      end
  end.

End Binding.

(* ===================================================================== *)
(** ** [AddSamplerModule] *)
(* ===================================================================== *)

Module Sampler.
Import Py Binding.
Import Cpp (class(..), type(..)).

(** Casting the two C++ defaults of the header to Python:
    [1] and [std::vector<double>()]. *)
Definition cast_int (z : Z) : object := Int_ z.
Definition cast_empty_vector : object := List_ [].

(** [void AddSamplerModule(py::module &m)].  The state threaded through
    the blocks is the content of the submodule ["sampler"]; [None] is an
    import that aborts. *)
Definition AddSamplerModule : option module :=
  let subm : module := [] in
  subm ← register
    (class_ AbSamplerType None "Sampler"
       |> ADDSAMPLERMETHODS AbSamplerType) subm;
  subm ←
    (let DerSampler := MetropolisLocal in
     register
       (class_ DerSampler (Some AbSamplerType) "MetropolisLocal"
          |> def_init [Ref (Class AbMachineType)] [arg "machine"]
          |> ADDSAMPLERMETHODS DerSampler) subm);
  subm ←
    (let DerSampler := MetropolisLocalPt in
     register
       (class_ DerSampler (Some AbSamplerType) "MetropolisLocalPt"
          |> def_init [Ref (Class AbMachineType); Int]
                      [arg "machine"; arg "n_replicas"]
          |> ADDSAMPLERMETHODS DerSampler) subm);
  subm ←
    (let DerSampler := MetropolisHop in
     register
       (class_ DerSampler (Some AbSamplerType) "MetropolisHop"
          |> def_init [Ref (Class AbstractGraph); Ref (Class AbMachineType);
                       Int]
                      [arg "graph"; arg "machine"; arg "d_max"]
          |> ADDSAMPLERMETHODS DerSampler) subm);
  subm ←
    (let DerSampler := MetropolisHamiltonian in
     register
       (class_ DerSampler (Some AbSamplerType) "MetropolisHamiltonian"
          |> def_init [Ref (Class AbMachineType);
                       Ref (Class AbstractOperator)]
                      [arg "machine"; arg "hamiltonian"]
          |> ADDSAMPLERMETHODS DerSampler) subm);
  subm ←
    (let DerSampler := MetropolisHamiltonianPt in
     register
       (class_ DerSampler (Some AbSamplerType) "MetropolisHamiltonianPt"
          |> def_init [Ref (Class AbMachineType);
                       Ref (Class AbstractOperator); Int]
                      [arg "machine"; arg "hamiltonian"; arg "n_replicas"]
          |> ADDSAMPLERMETHODS DerSampler) subm);
  subm ←
    (let DerSampler := MetropolisExchange in
     register
       (class_ DerSampler (Some AbSamplerType) "MetropolisExchange"
          |> def_init [ConstRef (Class AbstractGraph);
                       Ref (Class AbMachineType); Int]
                      [arg "graph"; arg "machine"; "d_max" =: cast_int 1]
          |> ADDSAMPLERMETHODS DerSampler) subm);
  subm ←
    (let DerSampler := MetropolisExchangePt in
     register
       (class_ DerSampler (Some AbSamplerType) "MetropolisExchangePt"
          |> def_init [ConstRef (Class AbstractGraph);
                       Ref (Class AbMachineType); Int; Int]
                      [arg "graph"; arg "machine"; "d_max" =: cast_int 1;
                       "n_replicas" =: cast_int 1]
          |> ADDSAMPLERMETHODS DerSampler) subm);
  subm ←
    (let DerSampler := ExactSampler in
     register
       (class_ DerSampler (Some AbSamplerType) "ExactSampler"
          |> def_init [Ref (Class AbMachineType)] [arg "machine"]
          |> ADDSAMPLERMETHODS DerSampler) subm);
  subm ←
    (let DerSampler := CustomSampler in
     register
       (class_ DerSampler (Some AbSamplerType) "CustomSampler"
          |> def_init [Ref (Class AbMachineType);
                       ConstRef (Vector MatType);
                       ConstRef (Vector (Vector Int));
                       Vector Double]
                      [arg "machine"; arg "move_operators";
                       arg "acting_on";
                       "move_weights" =: cast_empty_vector]
          |> ADDSAMPLERMETHODS DerSampler) subm);
  subm ←
    (let DerSampler := CustomSamplerPt in
     register
       (class_ DerSampler (Some AbSamplerType) "CustomSamplerPt"
          |> def_init [Ref (Class AbMachineType);
                       ConstRef (Vector MatType);
                       ConstRef (Vector (Vector Int));
                       Vector Double; Int]
                      [arg "machine"; arg "move_operators";
                       arg "acting_on";
                       "move_weights" =: cast_empty_vector;
                       arg "nreplicas"]
          |> ADDSAMPLERMETHODS DerSampler) subm);
  Some subm.

(** The submodule after a successful import (the empty module stands for
    an aborted one; [AddSamplerModule_ok] shows the import succeeds). *)
Definition sampler : module := default [] AddSamplerModule.

(** The ten concrete variants, in registration order. *)
Definition variants : list Cpp.class :=
  [MetropolisLocal; MetropolisLocalPt; MetropolisHop; MetropolisHamiltonian;
   MetropolisHamiltonianPt; MetropolisExchange; MetropolisExchangePt;
   ExactSampler; CustomSampler; CustomSamplerPt].

End Sampler.

(* ===================================================================== *)
(** ** pybind11's casters and call dispatcher *)
(* ===================================================================== *)

(** The header only declares bindings; what a declaration means for a
    caller is fixed by the pybind11 library ([cast.h], [attr.h] and
    [cpp_function::dispatcher] in [pybind11.h]).  This module follows those
    for the argument kinds the header uses. *)

Module Dispatch.
Import Py Binding.

(** Python's [issubclass] over the registered parents.  The fuel bounds the
    length of a parent chain by the number of registered classes. *)
Fixpoint issubclass_fuel (m : module) (fuel : nat) (d b : Cpp.class) : bool :=
  if bool_decide (d = b) then true
  else
    match fuel with
    | O => false
    | S fuel' =>
        match find_class m d with
        | Some cl =>
            match cl_base cl with
            | Some p => issubclass_fuel m fuel' p b
            | None => false
            end
        | None => false
        end
    end.

Definition issubclass (m : module) (d b : Cpp.class) : bool :=
  issubclass_fuel m (length m) d b.

Definition in_int_range (z : Z) : bool :=
  (Cpp.INT_MIN <=? z)%Z && (z <=? Cpp.INT_MAX)%Z.

(** [make_caster<t>::load(src, convert)].  Qualifiers are stripped
    ([intrinsic_t]).  The [int] caster refuses floats and values outside
    the 32-bit range; the [double] caster takes an integer only when
    converting; the list caster wants a sequence that is not a string and
    loads every element; a class caster takes an instance of the class or of
    a registered subclass.  [None] reaches a class reference as a null
    pointer, which the dispatcher treats as a failed load. *)
Fixpoint load (m : module) (convert : bool) (t : Cpp.type) (src : object)
    {struct t} : option Cpp.value :=
  match t with
  | Cpp.Ref t' | Cpp.ConstRef t' => load m convert t' src
  | Cpp.Int =>
      match src with
      | Int_ z => if in_int_range z then Some (Cpp.VInt z) else None
      | _ => None
      end
  | Cpp.Double =>
      match src with
      | Float_ q => Some (Cpp.VDouble q)
      | Int_ z => if convert then Some (Cpp.VDouble (inject_Z z)) else None
      | _ => None
      end
  | Cpp.MatType =>
      match src with
      | Matrix_ id => Some (Cpp.VMat id)
      | _ => None
      end
  | Cpp.Vector t' =>
      match src with
      | List_ l => Cpp.VVec <$> mapM (load m convert t') l
      | _ => None
      end
  | Cpp.Class c =>
      match src with
      | Instance d id =>
          if issubclass m d c then Some (Cpp.VObj d id) else None
      | _ => None
      end
  end.

(** The C++ signature behind a record, [self] first.  Only constructors are
    called through this model. *)
Definition signature (f : function_record) : option (list Cpp.type) :=
  match fr_impl f with
  | Init ts => Some (Cpp.Class (fr_scope f) :: ts)
  | Method _ _ => None
  end.

Definition is_none (o : object) : bool :=
  match o with None_ => true | _ => false end.

(** Step 1 of the dispatcher: copy the positional arguments.  A position
    whose name is also given as a keyword, or a [None] where it is not
    allowed, rejects the overload. *)
Fixpoint copy_positional (recs : list Py.arg) (args_in : list object)
    (kwargs_in : gmap string object) : option (list object) :=
  match args_in with
  | [] => Some []
  | a :: args' =>
      let bad :=
        match recs with
        | r :: _ =>
            bool_decide (is_Some (kwargs_in !! arg_name r))
            || (negb (arg_none r) && is_none a)
        | [] => false
        end in
      if bad then None
      else (a ::.) <$> copy_positional (tail recs) args' kwargs_in
  end.

(** Step 2: every parameter left takes its keyword (which is consumed),
    else its default; with neither the overload is rejected. *)
Fixpoint fill_keywords (recs : list Py.arg) (kwargs : gmap string object)
  : option (list object * gmap string object) :=
  match recs with
  | [] => Some ([], kwargs)
  | r :: recs' =>
      match kwargs !! arg_name r with
      | Some v =>
          '(vs, kw) ← fill_keywords recs' (delete (arg_name r) kwargs);
          Some (v :: vs, kw)
      | None =>
          match arg_value r with
          | Some v =>
              '(vs, kw) ← fill_keywords recs' kwargs;
              Some (v :: vs, kw)
          | None => None
          end
      end
  end.

(** Step 4: run the casters over the collected arguments. *)
Fixpoint load_all (m : module) (convert : bool) (ts : list Cpp.type)
    (vs : list object) : option (list Cpp.value) :=
  match ts, vs with
  | [], [] => Some []
  | t :: ts', v :: vs' =>
      x ← load m convert t v;
      xs ← load_all m convert ts' vs';
      Some (x :: xs)
  | _, _ => None
  end.

(** One overload against one call.  There is no [py::args] and no
    [py::kwargs] in the header, so surplus positional arguments and
    keywords left over (step 3) reject the overload. *)
Definition try_overload (m : module) (convert : bool) (f : function_record)
    (args_in : list object) (kwargs_in : gmap string object)
  : option (list Cpp.value) :=
  ts ← signature f;
  let num_args := length ts in
  let n_args_in := length args_in in
  if bool_decide (num_args < n_args_in) then None
  else if bool_decide (n_args_in < num_args)
          && bool_decide (length (fr_args f) < num_args) then None
  else
    pos ← copy_positional (fr_args f) args_in kwargs_in;
    '(kw, rest) ← fill_keywords (drop n_args_in (fr_args f)) kwargs_in;
    if bool_decide (size rest = 0) then load_all m convert ts (pos ++ kw)
    else None.

Fixpoint first_accepting (m : module) (convert : bool)
    (chain : list function_record) (args_in : list object)
    (kwargs_in : gmap string object)
  : option (function_record * list Cpp.value) :=
  match chain with
  | [] => None
  | f :: chain' =>
      match try_overload m convert f args_in kwargs_in with
      | Some vs => Some (f, vs)
      | None => first_accepting m convert chain' args_in kwargs_in
      end
  end.

(** [cpp_function::dispatcher]: with several overloads a first pass runs
    without conversions; one overload alone is tried once, converting. *)
Definition dispatcher (m : module) (chain : list function_record)
    (args_in : list object) (kwargs_in : gmap string object)
  : exception + (function_record * list Cpp.value) :=
  let overloaded := bool_decide (1 < length chain) in
  let first_pass :=
    if overloaded then first_accepting m false chain args_in kwargs_in
    else None in
  match first_pass with
  | Some r => inr r
  | None =>
      match first_accepting m true chain args_in kwargs_in with
      | Some r => inr r
      | None => inl TypeError_IncompatibleArguments
      end
  end.

(** Attribute lookup along the parent chain: the class dictionary first. *)
Fixpoint lookup_attr_fuel (m : module) (fuel : nat) (c : Py.class_)
    (name : string) : option (list function_record) :=
  match List.find (fun e => String.eqb (fst e) name) (cl_dict c) with
  | Some e => Some (snd e)
  | None =>
      match fuel with
      | O => None
      | S fuel' =>
          b ← cl_base c;
          p ← find_class m b;
          lookup_attr_fuel m fuel' p name
      end
  end.

Definition lookup_attr (m : module) (c : Py.class_) (name : string)
  : option (list function_record) :=
  lookup_attr_fuel m (length m) c name.

(** The names a caller sees on a class: its own, then the inherited ones
    that are not hidden. *)
Fixpoint dir_fuel (m : module) (fuel : nat) (c : Py.class_) : list string :=
  let own := (cl_dict c).*1 in
  match fuel with
  | O => own
  | S fuel' =>
      match cl_base c ≫= find_class m with
      | Some p => list_union own (dir_fuel m fuel' p)
      | None => own
      end
  end.

Definition dir (m : module) (c : Py.class_) : list string :=
  dir_fuel m (length m) c.

(** A C++ constructor call: the class constructed and its arguments. *)
Record construction : Type := mk_construction {
  con_class : Cpp.class;
  con_args  : list Cpp.value
}.

(** Calling a class: ["__init__"] is looked up and dispatched with the new
    instance in front.  A class with no constructor anywhere on its chain
    has pybind11's default, which raises. *)
Definition call_class (m : module) (c : Py.class_) (args : list object)
    (kwargs : gmap string object) : exception + construction :=
  match lookup_attr m c "__init__" with
  | None => inl TypeError_NoConstructor
  | Some chain =>
      match dispatcher m chain (Instance (cl_type c) 0 :: args) kwargs with
      | inl e => inl e
      | inr (f, vs) => inr (mk_construction (fr_scope f) (tail vs))
      end
  end.

End Dispatch.

(* ===================================================================== *)
(** ** The sampler constructors behind the bindings *)
(* ===================================================================== *)

Module Core.
Import Dispatch.

(** Modelled from the spec: the error taxonomy of the sampler core, whose
    headers ([custom_sampler.hpp], [metropolis_local_pt.hpp], ...) are only
    included by the binding file.  Section 7 of the specification lists
    these four kinds. *)
Inductive error : Set :=
  | InvalidConfiguration
  | ConstructionError
  | NoValidMove
  | HilbertSpaceTooLarge.

(** Modelled from the spec: a constructed sampler (classes of the absent
    sampler headers), as far as the construction-time options go: its
    class, its replica count and its move weights. *)
Record instance : Type := mk_instance {
  in_class    : Cpp.class;
  in_replicas : Z;
  in_weights  : list Q
}.

(** Modelled from the spec: the replica-count check of the parallel
    tempering constructors (absent headers [metropolis_local_pt.hpp],
    [metropolis_hamiltonian_pt.hpp], [metropolis_exchange_pt.hpp],
    [custom_sampler_pt.hpp]): [n_replicas <= 0] is a [ConstructionError]. *)
Definition check_replicas (n_replicas : Z) : option error :=
  if (n_replicas <=? 0)%Z then Some ConstructionError else None.

(** Modelled from the spec: the distance check of the exchange constructors
    (absent header [metropolis_exchange_pt.hpp]): a negative or zero [d_max]
    is a [ConstructionError]. *)
Definition check_d_max (d_max : Z) : option error :=
  if (d_max <=? 0)%Z then Some ConstructionError else None.

(** Modelled from the spec: the weights of a [std::vector<double>] as the
    custom constructors (absent header [custom_sampler.hpp]) read them. *)
Definition doubles (l : list Cpp.value) : list Q :=
  omap (fun v => match v with Cpp.VDouble q => Some q | _ => None end) l.

(** Modelled from the spec: the move-operator-set check of the custom
    constructors (absent headers [custom_sampler.hpp] and
    [custom_sampler_pt.hpp]): matrix count, acting_on count and weight count
    must agree, a mismatch being a [ConstructionError]; weights that are
    unset, which is how the empty vector of the binding's default arrives,
    become uniform. *)
Definition move_operator_set (move_operators acting_on move_weights
                              : list Cpp.value) : error + list Q :=
  if negb (Nat.eqb (length move_operators) (length acting_on)) then
    inl ConstructionError
  else
    match move_weights with
    | [] => inr (replicate (length move_operators) 1%Q)
    | _ :: _ =>
        if negb (Nat.eqb (length move_weights) (length move_operators)) then
          inl ConstructionError
        else inr (doubles move_weights)
    end.

(** Modelled from the spec: the constructors of the four parallel-tempering
    samplers and of the custom sampler (absent headers as above), each
    running the checks the specification gives for its options.  The
    remaining classes have no construction-time check among those this
    development reasons about and are left out ([None]). *)
Definition new (c : construction) : option (error + instance) :=
  match con_class c, con_args c with
  | Cpp.MetropolisLocalPt, [_; Cpp.VInt n] =>
      Some (match check_replicas n with
            | Some e => inl e
            | None => inr (mk_instance Cpp.MetropolisLocalPt n [])
            end)
  | Cpp.MetropolisHamiltonianPt, [_; _; Cpp.VInt n] =>
      Some (match check_replicas n with
            | Some e => inl e
            | None => inr (mk_instance Cpp.MetropolisHamiltonianPt n [])
            end)
  | Cpp.MetropolisExchangePt, [_; _; Cpp.VInt d; Cpp.VInt n] =>
      Some (match check_d_max d, check_replicas n with
            | Some e, _ | None, Some e => inl e
            | None, None => inr (mk_instance Cpp.MetropolisExchangePt n [])
            end)
  | Cpp.CustomSampler, [_; Cpp.VVec ops; Cpp.VVec sites; Cpp.VVec ws] =>
      Some (match move_operator_set ops sites ws with
            | inl e => inl e
            | inr w => inr (mk_instance Cpp.CustomSampler 1 w)
            end)
  | Cpp.CustomSamplerPt,
    [_; Cpp.VVec ops; Cpp.VVec sites; Cpp.VVec ws; Cpp.VInt n] =>
      Some (match move_operator_set ops sites ws, check_replicas n with
            | inl e, _ | inr _, Some e => inl e
            | inr w, None => inr (mk_instance Cpp.CustomSamplerPt n w)
            end)
  | _, _ => None
  end.

(** Modelled from the spec: the weights the custom proposer selects a move
    operator by (absent header [custom_sampler.hpp]); weights that are all
    zero fall back to uniform weighting. *)
Definition selection_weights (s : instance) : list Q :=
  if forallb (Qeq_bool 0) (in_weights s)
  then replicate (length (in_weights s)) 1%Q
  else in_weights s.

(** Every move operator has the same selection weight. *)
Definition uniform (w : list Q) : Prop :=
  ∀ i j x y, w !! i = Some x → w !! j = Some y → x = y.

End Core.

(* ===================================================================== *)
(** ** Python-level entry points on the registered module *)
(* ===================================================================== *)

Module Netket.
Import Py Binding Sampler Dispatch.

(** [netket.sampler.<name>(args, kwargs)]. *)
Definition construct (name : string) (args : list object)
    (kwargs : gmap string object) : exception + construction :=
  match find_name sampler name with
  | None => inl AttributeError
  | Some c => call_class sampler c args kwargs
  end.

(** The declared constructor parameters of a class, [self] aside. *)
Definition ctor_params (t : Cpp.class) : list Py.arg :=
  match find_class sampler t ≫= fun c => lookup_attr sampler c "__init__" with
  | Some [f] => tail (fr_args f)
  | _ => []
  end.

(** The C++ parameter types of that constructor. *)
Definition ctor_types (t : Cpp.class) : list Cpp.type :=
  match find_class sampler t ≫= fun c => lookup_attr sampler c "__init__" with
  | Some [f] => match fr_impl f with Init ts => ts | Method _ _ => [] end
  | _ => []
  end.

(** The registered class of a C++ type. *)
Definition the_class (t : Cpp.class) : Py.class_ :=
  default (class_ t None "") (find_class sampler t).

(** The member functions a class binds, with their Python names. *)
Definition bound_methods (c : Py.class_)
  : list (string * (Cpp.class * Cpp.member)) :=
  flat_map
    (fun e => omap (fun f => match fr_impl f with
                             | Method t mem => Some (fst e, (t, mem))
                             | Init _ => None
                             end) (snd e))
    (cl_dict c).

(** The constructors a class binds. *)
Definition bound_inits (c : Py.class_) : list function_record :=
  flat_map
    (fun e => List.filter (fun f => match fr_impl f with
                                    | Init _ => true
                                    | Method _ _ => false
                                    end) (snd e))
    (cl_dict c).

(** The five bindings of [ADDSAMPLERMETHODS(t)]. *)
Definition contract (t : Cpp.class)
  : list (string * (Cpp.class * Cpp.member)) :=
  [("reset", (t, Cpp.Reset)); ("sweep", (t, Cpp.Sweep));
   ("get_visible", (t, Cpp.Visible)); ("set_visible", (t, Cpp.SetVisible));
   ("acceptance", (t, Cpp.Acceptance))].

(** The caller gives parameter [i] (counted without [self]) by position or
    by the keyword [name]. *)
Definition given (i : nat) (name : string) (args : list object)
    (kwargs : gmap string object) : Prop :=
  i < length args ∨ is_Some (kwargs !! name).

Definition keywords (l : list (string * object)) : gmap string object :=
  list_to_map l.

(** The replica count a parallel-tempering constructor receives: in each of
    the four bindings it is the last parameter. *)
Definition replica_count (c : construction) : option Z :=
  last (con_args c) ≫=
    fun v => match v with Cpp.VInt n => Some n | _ => None end.

(** The parallel-tempering classes under their Python names. *)
Definition pt_names : list (string * Cpp.class) :=
  [("MetropolisLocalPt", Cpp.MetropolisLocalPt);
   ("MetropolisHamiltonianPt", Cpp.MetropolisHamiltonianPt);
   ("MetropolisExchangePt", Cpp.MetropolisExchangePt);
   ("CustomSamplerPt", Cpp.CustomSamplerPt)].

(** The constructor of [t] declares exactly the parameters [names], in
    this order and under these keywords, and none of them has a default. *)
Definition requires_exactly (t : Cpp.class) (names : list string) : Prop :=
  arg_name <$> ctor_params t = names ∧
  Forall (fun r => arg_value r = None) (ctor_params t).

End Netket.

(* ===================================================================== *)
(** ** Facts about the dispatcher *)
(* ===================================================================== *)

Module DispatchFacts.
Import Py Binding Dispatch.

Section fill_keywords.
Implicit Types (recs : list Py.arg) (kwargs rest : gmap string object).

(** Keywords are only consumed: what is left is what came in, minus the
    names of the parameters filled. *)
Lemma fill_keywords_rest recs kwargs vs rest k :
  fill_keywords recs kwargs = Some (vs, rest) →
  rest !! k = if decide (k ∈ arg_name <$> recs) then None else kwargs !! k.
Proof.
  revert kwargs vs rest.
  induction recs as [|r recs IH]; intros kwargs vs rest Hfill;
    simpl in Hfill.
  - injection Hfill as <- <-.
    case_decide as Hin; [by apply elem_of_nil in Hin|done].
  - rewrite fmap_cons.
    destruct (kwargs !! arg_name r) as [v|] eqn:Hk.
    + destruct (fill_keywords recs (delete (arg_name r) kwargs))
        as [[vs' kw']|] eqn:Hrec; simplify_eq/=.
      rewrite (IH _ _ _ Hrec).
      destruct (decide (k = arg_name r)) as [->|Hne].
      * rewrite lookup_delete_eq.
        rewrite (decide_True (P := _ ∈ _ :: _)); [by case_decide|].
        apply elem_of_cons; by left.
      * rewrite lookup_delete_ne by done.
        destruct (decide (k ∈ arg_name <$> recs)) as [Hin|Hin].
        -- rewrite decide_True; [done|]. apply elem_of_cons; by right.
        -- rewrite decide_False; [done|].
           intros [?|?]%elem_of_cons; done.
    + destruct (arg_value r) as [d|]; [|done].
      destruct (fill_keywords recs kwargs) as [[vs' kw']|] eqn:Hrec;
        simplify_eq/=.
      rewrite (IH _ _ _ Hrec).
      destruct (decide (k = arg_name r)) as [->|Hne].
      * rewrite Hk. by repeat case_decide.
      * destruct (decide (k ∈ arg_name <$> recs)) as [Hin|Hin].
        -- rewrite decide_True; [done|]. apply elem_of_cons; by right.
        -- rewrite decide_False; [done|].
           intros [?|?]%elem_of_cons; done.
Qed.

Lemma fill_keywords_length recs kwargs vs rest :
  fill_keywords recs kwargs = Some (vs, rest) → length vs = length recs.
Proof.
  revert kwargs vs rest.
  induction recs as [|r recs IH]; intros kwargs vs rest Hfill; simpl in *.
  - by simplify_eq.
  - destruct (kwargs !! arg_name r) as [v|].
    + destruct (fill_keywords recs _) as [[vs' kw']|] eqn:Hrec;
        simplify_eq/=. f_equal. eauto.
    + destruct (arg_value r) as [d|]; [|done].
      destruct (fill_keywords recs _) as [[vs' kw']|] eqn:Hrec;
        simplify_eq/=. f_equal. eauto.
Qed.

(** A parameter with no default must have come by keyword. *)
Lemma fill_keywords_required recs kwargs vs rest i r :
  fill_keywords recs kwargs = Some (vs, rest) →
  recs !! i = Some r → arg_value r = None →
  is_Some (kwargs !! arg_name r).
Proof.
  revert kwargs vs rest i.
  induction recs as [|r0 recs IH]; intros kwargs vs rest i Hfill Hi Hreq;
    simpl in *; [done|].
  destruct i as [|i]; simpl in Hi.
  - simplify_eq. destruct (kwargs !! arg_name r); [eauto|].
    by rewrite Hreq in Hfill.
  - destruct (kwargs !! arg_name r0) as [v|] eqn:Hk.
    + destruct (fill_keywords recs _) as [[vs' kw']|] eqn:Hrec;
        simplify_eq/=.
      destruct (IH _ _ _ _ Hrec Hi Hreq) as [x Hx].
      apply lookup_delete_Some in Hx as [_ Hx]. eauto.
    + destruct (arg_value r0) as [d|]; [|done].
      destruct (fill_keywords recs _) as [[vs' kw']|] eqn:Hrec;
        simplify_eq/=. eauto.
Qed.

(** A parameter whose keyword is absent takes its default. *)
Lemma fill_keywords_default recs kwargs vs rest i r :
  fill_keywords recs kwargs = Some (vs, rest) →
  recs !! i = Some r → kwargs !! arg_name r = None →
  vs !! i = arg_value r.
Proof.
  revert kwargs vs rest i.
  induction recs as [|r0 recs IH]; intros kwargs vs rest i Hfill Hi Hno;
    simpl in *; [done|].
  destruct i as [|i]; simpl in Hi.
  - simplify_eq. rewrite Hno in Hfill.
    destruct (arg_value r) as [d|]; [|done].
    destruct (fill_keywords recs _) as [[vs' kw']|]; by simplify_eq/=.
  - destruct (kwargs !! arg_name r0) as [v|] eqn:Hk.
    + destruct (fill_keywords recs _) as [[vs' kw']|] eqn:Hrec;
        simplify_eq/=.
      eapply IH; [done..|]. apply lookup_delete_None. by right.
    + destruct (arg_value r0) as [d|]; [|done].
      destruct (fill_keywords recs _) as [[vs' kw']|] eqn:Hrec;
        simplify_eq/=. eauto.
Qed.

(** A keyword given for a parameter whose name no earlier parameter
    shares is the value that parameter takes. *)
Lemma fill_keywords_keyword recs kwargs vs rest i r v :
  fill_keywords recs kwargs = Some (vs, rest) →
  recs !! i = Some r → kwargs !! arg_name r = Some v →
  arg_name r ∉ arg_name <$> take i recs →
  vs !! i = Some v.
Proof.
  revert kwargs vs rest i.
  induction recs as [|r0 recs IH];
    intros kwargs vs rest i Hfill Hi Hk Hfresh; simpl in *; [done|].
  destruct i as [|i]; simpl in Hi.
  - simplify_eq. rewrite Hk in Hfill.
    destruct (fill_keywords recs _) as [[vs' kw']|]; by simplify_eq/=.
  - simpl in Hfresh. apply not_elem_of_cons in Hfresh as [Hne Hfresh].
    destruct (kwargs !! arg_name r0) as [v0|] eqn:Hk0.
    + destruct (fill_keywords recs _) as [[vs' kw']|] eqn:Hrec;
        simplify_eq/=.
      eapply IH; [done..| |done]. by rewrite lookup_delete_ne.
    + destruct (arg_value r0) as [d|]; [|done].
      destruct (fill_keywords recs _) as [[vs' kw']|] eqn:Hrec;
        simplify_eq/=. eauto.
Qed.
End fill_keywords.


Section copy_positional.
Implicit Types (recs : list Py.arg) (kwargs : gmap string object).

Lemma copy_positional_id recs args kwargs pos :
  copy_positional recs args kwargs = Some pos → pos = args.
Proof.
  revert recs pos.
  induction args as [|a args IH]; intros recs pos H; simpl in H.
  - by simplify_eq.
  - destruct recs as [|r recs]; simpl in H.
    + destruct (copy_positional [] args kwargs) eqn:Hrec; simplify_eq/=.
      f_equal. eauto.
    + destruct (_ || _); [done|].
      destruct (copy_positional recs args kwargs) eqn:Hrec; simplify_eq/=.
      f_equal. eauto.
Qed.

(** A parameter given by position is not given by keyword as well. *)
Lemma copy_positional_no_keyword recs args kwargs pos i r :
  copy_positional recs args kwargs = Some pos →
  i < length args → recs !! i = Some r →
  kwargs !! arg_name r = None.
Proof.
  revert recs pos i.
  induction args as [|a args IH]; intros recs pos i H Hi Hr; simpl in *.
  - lia.
  - destruct recs as [|r0 recs]; [done|]. simpl in H.
    destruct (bool_decide _) eqn:Hkw; [done|].
    destruct (negb _ && _); [done|]. simpl in H.
    destruct (copy_positional recs args kwargs) eqn:Hrec; simplify_eq/=.
    destruct i as [|i]; simpl in Hr.
    + simplify_eq. apply bool_decide_eq_false in Hkw.
      by apply eq_None_not_Some.
    + apply (IH recs _ i Hrec); [lia|done].
Qed.
End copy_positional.

Section load_all.
Context (m : module) (convert : bool).

Lemma load_all_length ts objs vs :
  load_all m convert ts objs = Some vs →
  length objs = length ts ∧ length vs = length ts.
Proof.
  revert objs vs.
  induction ts as [|t ts IH]; intros [|o objs] vs H; simpl in H;
    simplify_eq/=; [done|].
  destruct (load m convert t o); [|done]. simpl in H.
  destruct (load_all m convert ts objs) eqn:Hrec; simplify_eq/=.
  destruct (IH _ _ Hrec). auto.
Qed.

Lemma load_all_lookup ts objs vs i t o :
  load_all m convert ts objs = Some vs →
  ts !! i = Some t → objs !! i = Some o →
  vs !! i = load m convert t o.
Proof.
  revert objs vs i.
  induction ts as [|t0 ts IH]; intros [|o0 objs] vs i H Ht Ho;
    simpl in H; simplify_eq/=.
  destruct (load m convert t0 o0) as [x|] eqn:Hx; [|done]. simpl in H.
  destruct (load_all m convert ts objs) eqn:Hrec; simplify_eq/=.
  destruct i as [|i]; simplify_eq/=; [done|]. eauto.
Qed.

Lemma load_all_cons t ts o objs x xs :
  load m convert t o = Some x →
  load_all m convert ts objs = Some xs →
  load_all m convert (t :: ts) (o :: objs) = Some (x :: xs).
Proof. intros Hx Hxs. simpl. by rewrite Hx, Hxs. Qed.

(** Every value handed to C++ is some argument seen through the caster
    of its parameter type. *)
Lemma load_all_Forall2 ts objs vs :
  load_all m convert ts objs = Some vs →
  Forall2 (fun t v => ∃ o, load m convert t o = Some v) ts vs.
Proof.
  revert objs vs.
  induction ts as [|t ts IH]; intros [|o objs] vs H; simpl in H;
    simplify_eq/=; [constructor|].
  destruct (load m convert t o) as [x|] eqn:Hx; [|done]. simpl in H.
  destruct (load_all m convert ts objs) eqn:Hrec; simplify_eq/=.
  constructor; eauto.
Qed.
End load_all.

Section try_overload.
Context (m : module) (convert : bool) (f : function_record).
Implicit Types (args : list object) (kwargs : gmap string object).

Lemma try_overload_inv args kwargs vs :
  try_overload m convert f args kwargs = Some vs →
  ∃ ts kw rest,
    signature f = Some ts ∧
    (length args ≤ length ts)%nat ∧
    copy_positional (fr_args f) args kwargs = Some args ∧
    fill_keywords (drop (length args) (fr_args f)) kwargs
      = Some (kw, rest) ∧
    rest = ∅ ∧
    load_all m convert ts (args ++ kw) = Some vs.
Proof.
  unfold try_overload. intros H.
  destruct (signature f) as [ts|]; [|done]. simpl in H.
  case_bool_decide as Hmany; [done|].
  destruct (_ && _); [done|].
  destruct (copy_positional _ _ _) as [pos|] eqn:Hpos; [|done].
  simpl in H.
  destruct (fill_keywords _ _) as [[kw rest]|] eqn:Hkw; [|done].
  simpl in H.
  case_bool_decide as Hrest; [|done].
  pose proof (copy_positional_id _ _ _ _ Hpos) as ->.
  exists ts, kw, rest. repeat split; try done; [lia|].
  by apply map_size_empty_iff.
Qed.

(** Every parameter without a default is given, by position or by its
    keyword. *)
Lemma try_overload_required args kwargs vs i r :
  try_overload m convert f args kwargs = Some vs →
  fr_args f !! i = Some r → arg_value r = None →
  i < length args ∨ is_Some (kwargs !! arg_name r).
Proof.
  intros (ts & kw & rest & _ & _ & _ & Hkw & _ & _)%try_overload_inv
         Hi Hreq.
  destruct (decide (i < length args)) as [|Hge]; [by left|right].
  eapply (fill_keywords_required _ _ _ _ (i - length args)); [done| |done].
  rewrite lookup_drop. rewrite <- Hi. f_equal. lia.
Qed.

(** Every keyword of an accepted call names a parameter that is not given
    by position. *)
Lemma try_overload_keywords args kwargs vs k :
  try_overload m convert f args kwargs = Some vs →
  is_Some (kwargs !! k) →
  ∃ i r, fr_args f !! i = Some r ∧ arg_name r = k
         ∧ (length args ≤ i)%nat.
Proof.
  intros (ts & kw & rest & _ & _ & _ & Hkw & -> & _)%try_overload_inv
         [v Hk].
  pose proof (fill_keywords_rest _ _ _ _ k Hkw) as Hrest.
  rewrite lookup_empty in Hrest.
  case_decide as Hin; [|congruence].
  apply list_elem_of_fmap in Hin as (r & -> & Hr).
  apply list_elem_of_lookup in Hr as [j Hj].
  rewrite lookup_drop in Hj.
  exists (length args + j), r. repeat split; [done|lia].
Qed.

(** A parameter that is given neither by position nor by keyword is
    loaded from its default. *)
Lemma try_overload_default args kwargs vs ts i r t d :
  try_overload m convert f args kwargs = Some vs →
  signature f = Some ts → ts !! i = Some t →
  fr_args f !! i = Some r → arg_value r = Some d →
  (length args ≤ i)%nat → kwargs !! arg_name r = None →
  vs !! i = load m convert t d.
Proof.
  intros (ts' & kw & rest & Hsig & _ & _ & Hkw & _ & Hload)%try_overload_inv
         Hsig' Ht Hi Hd Hge Hno.
  rewrite Hsig in Hsig'. simplify_eq.
  eapply load_all_lookup; [done..|].
  rewrite lookup_app_r by done. rewrite <- Hd.
  eapply fill_keywords_default; [done| |done].
  rewrite lookup_drop. rewrite <- Hi. f_equal. lia.
Qed.

(** A parameter given by position is loaded from that argument. *)
Lemma try_overload_positional args kwargs vs ts i t o :
  try_overload m convert f args kwargs = Some vs →
  signature f = Some ts → ts !! i = Some t →
  args !! i = Some o →
  vs !! i = load m convert t o.
Proof.
  intros (ts' & kw & rest & Hsig & _ & _ & _ & _ & Hload)%try_overload_inv
         Hsig' Ht Ho.
  rewrite Hsig in Hsig'. simplify_eq.
  eapply load_all_lookup; [done..|].
  by apply lookup_app_l_Some.
Qed.

(** A parameter given by keyword is loaded from that keyword. *)
Lemma try_overload_keyword args kwargs vs ts i r t o :
  try_overload m convert f args kwargs = Some vs →
  signature f = Some ts → ts !! i = Some t →
  fr_args f !! i = Some r → kwargs !! arg_name r = Some o →
  NoDup (arg_name <$> fr_args f) →
  vs !! i = load m convert t o.
Proof.
  intros H Hsig' Ht Hi Hk Hnd.
  pose proof H as
    (ts' & kw & rest & Hsig & _ & Hpos & Hkw & _ & Hload)%try_overload_inv.
  rewrite Hsig in Hsig'. simplify_eq.
  destruct (decide (i < length args)) as [Hlt|Hge].
  { pose proof (copy_positional_no_keyword _ _ _ _ _ _ Hpos Hlt Hi).
    congruence. }
  eapply load_all_lookup; [done..|].
  rewrite lookup_app_r by lia.
  eapply fill_keywords_keyword; [done| |done|].
  - rewrite lookup_drop. rewrite <- Hi. f_equal. lia.
  - intros Hin.
    apply list_elem_of_fmap in Hin as (r' & Heq & Hr').
    apply list_elem_of_lookup in Hr' as [j Hj].
    apply lookup_take_Some in Hj as [Hj Hlt].
    rewrite lookup_drop in Hj.
    assert ((arg_name <$> fr_args f) !! (length args + j)
            = Some (arg_name r')) as H1 by by rewrite list_lookup_fmap, Hj.
    assert ((arg_name <$> fr_args f) !! i = Some (arg_name r)) as H2
        by by rewrite list_lookup_fmap, Hi.
    rewrite <- Heq in H1.
    pose proof (NoDup_lookup _ _ _ _ Hnd H1 H2). lia.
Qed.

(** The converse of [try_overload_inv], for a fully annotated record. *)
Lemma try_overload_intro args kwargs ts kw :
  signature f = Some ts →
  length (fr_args f) = length ts →
  (length args ≤ length ts)%nat →
  copy_positional (fr_args f) args kwargs = Some args →
  fill_keywords (drop (length args) (fr_args f)) kwargs = Some (kw, ∅) →
  try_overload m convert f args kwargs
  = load_all m convert ts (args ++ kw).
Proof.
  intros Hsig Hlen Hle Hpos Hkw. unfold try_overload.
  rewrite Hsig. simpl.
  rewrite bool_decide_eq_false_2 by lia.
  rewrite (bool_decide_eq_false_2 (length (fr_args f) < _)) by lia.
  rewrite andb_false_r, Hpos. simpl. rewrite Hkw. simpl.
  by rewrite bool_decide_eq_true_2 by apply map_size_empty.
Qed.

Lemma try_overload_loaded args kwargs vs ts :
  try_overload m convert f args kwargs = Some vs →
  signature f = Some ts →
  Forall2 (fun t v => ∃ o, load m convert t o = Some v) ts vs.
Proof.
  intros (ts' & kw & rest & Hsig & _ & _ & _ & _ & Hload)%try_overload_inv
         Hsig'.
  rewrite Hsig in Hsig'. simplify_eq. by eapply load_all_Forall2.
Qed.
End try_overload.

Section call_class.
Context (m : module) (c : Py.class_) (f : function_record).
Implicit Types (args : list object) (kwargs : gmap string object).

(** A class whose constructor has one overload: the call is that
    overload tried once, with conversions. *)
Lemma call_class_single args kwargs :
  lookup_attr m c "__init__" = Some [f] →
  call_class m c args kwargs =
    match try_overload m true f (Instance (cl_type c) 0 :: args) kwargs with
    | Some vs => inr (mk_construction (fr_scope f) (tail vs))
    | None => inl TypeError_IncompatibleArguments
    end.
Proof.
  intros Hl. unfold call_class, dispatcher. rewrite Hl. simpl.
  by destruct (try_overload _ _ _ _ _).
Qed.

Lemma call_class_no_init args kwargs :
  lookup_attr m c "__init__" = None →
  call_class m c args kwargs = inl TypeError_NoConstructor.
Proof. intros Hl. unfold call_class. by rewrite Hl. Qed.
End call_class.

End DispatchFacts.

(* ===================================================================== *)
(** ** Facts about the registered module *)
(* ===================================================================== *)

Module SamplerFacts.
Import Py Binding Sampler Dispatch Netket DispatchFacts.
Import Cpp (class(..), type(..)).

(** The import does not abort: the parent is registered first and no type
    is registered twice. *)
Lemma AddSamplerModule_ok :
  AddSamplerModule = Some sampler ∧
  cl_type <$> sampler = AbSamplerType :: variants.
Proof. split; vm_compute; reflexivity. Qed.

Lemma registered t :
  t ∈ AbSamplerType :: variants → find_class sampler t = Some (the_class t).
Proof.
  intros Ht. unfold the_class.
  destruct (find_class sampler t) eqn:Hf; [done|exfalso].
  revert Hf. repeat (apply elem_of_cons in Ht as [->|Ht]; [by vm_compute|]).
  by apply elem_of_nil in Ht.
Qed.

(** The constructor record of each variant, as one table. *)
Definition init_facts (t : Cpp.class) : Prop :=
  ∃ f,
    lookup_attr sampler (the_class t) "__init__" = Some [f] ∧
    cl_type (the_class t) = t ∧
    fr_scope f = t ∧
    fr_args f = self_arg :: ctor_params t ∧
    signature f = Some (Class t :: ctor_types t) ∧
    length (ctor_types t) = length (ctor_params t) ∧
    NoDup (arg_name <$> fr_args f).

Lemma init_facts_variants : Forall init_facts variants.
Proof.
  repeat apply Forall_cons_2; try apply Forall_nil_2;
    (eexists; split; [vm_compute; reflexivity|];
     repeat split; try (vm_compute; reflexivity);
     apply (bool_decide_unpack _); vm_compute; reflexivity).
Qed.

Lemma variant_init t : t ∈ variants → init_facts t.
Proof.
  intros Ht. by eapply Forall_forall in Ht; [|apply init_facts_variants].
Qed.

(** Opening an accepted constructor call of a variant: the record [f] of
    its single overload and the values [vs] the overload produced. *)
Ltac ctor_inv Ht Hcall :=
  let f := fresh "f" in
  let vs := fresh "vs" in
  let Htry := fresh "Htry" in
  destruct (variant_init _ Ht)
    as (f & Hl & Hty & Hscope & Hargs & Hsig & Hlen & Hnd);
  rewrite (call_class_single _ _ f _ _ Hl) in Hcall;
  destruct (try_overload _ _ f _ _) as [vs|] eqn:Htry; [|done];
  injection Hcall as <-; rewrite Hty in Htry.

Section ctor_call.
Context (t : Cpp.class) (Ht : t ∈ variants).
Context (args : list object) (kwargs : gmap string object).
Context (con : construction).
Context (Hcall : call_class sampler (the_class t) args kwargs = inr con).

(** The constructor reached is that of the class called. *)
Lemma ctor_call_class : con_class con = t.
Proof using Ht Hcall. ctor_inv Ht Hcall. done. Qed.

(** A parameter without a default is given by the caller. *)
Lemma ctor_call_required i r :
  ctor_params t !! i = Some r → arg_value r = None →
  given i (arg_name r) args kwargs.
Proof using Ht Hcall.
  intros Hi Hreq. ctor_inv Ht Hcall.
  destruct (try_overload_required _ _ _ _ _ _ (S i) r Htry) as [Hpos|Hkw];
    [by rewrite Hargs|done| |].
  - left. simpl in Hpos. lia.
  - by right.
Qed.

(** Only the declared names are accepted as keywords. *)
Lemma ctor_call_keywords k :
  is_Some (kwargs !! k) →
  ∃ i r, ctor_params t !! i = Some r ∧ arg_name r = k
         ∧ (length args ≤ i)%nat.
Proof using Ht Hcall.
  intros Hk. ctor_inv Ht Hcall.
  destruct (try_overload_keywords _ _ _ _ _ _ k Htry Hk)
    as (i & r & Hi & Hname & Hge).
  rewrite Hargs in Hi. simpl in Hge.
  destruct i as [|i]; [lia|]. simpl in Hi.
  exists i, r. repeat split; [done..|lia].
Qed.

(** A parameter left out takes its default, through its caster. *)
Lemma ctor_call_default i r ty d :
  ctor_params t !! i = Some r → ctor_types t !! i = Some ty →
  arg_value r = Some d → ¬ given i (arg_name r) args kwargs →
  con_args con !! i = load sampler true ty d.
Proof using Ht Hcall.
  intros Hi Hty' Hd Hnot. ctor_inv Ht Hcall. simpl.
  rewrite lookup_tail.
  eapply (try_overload_default _ _ _ _ _ _ _ (S i) r); try done.
  - by rewrite Hargs.
  - simpl. unfold given in Hnot. lia.
  - apply eq_None_not_Some. unfold given in Hnot. tauto.
Qed.

(** A parameter given by position takes that argument. *)
Lemma ctor_call_positional i ty o :
  ctor_types t !! i = Some ty → args !! i = Some o →
  con_args con !! i = load sampler true ty o.
Proof using Ht Hcall.
  intros Hty' Ho. ctor_inv Ht Hcall. simpl.
  rewrite lookup_tail.
  by eapply (try_overload_positional _ _ _ _ _ _ _ (S i)).
Qed.

(** A parameter given by keyword takes that keyword's value. *)
Lemma ctor_call_keyword i r ty o :
  ctor_params t !! i = Some r → ctor_types t !! i = Some ty →
  kwargs !! arg_name r = Some o →
  con_args con !! i = load sampler true ty o.
Proof using Ht Hcall.
  intros Hi Hty' Ho. ctor_inv Ht Hcall. simpl.
  rewrite lookup_tail.
  eapply (try_overload_keyword _ _ _ _ _ _ _ (S i) r); try done.
  by rewrite Hargs.
Qed.

(** The C++ arguments are as many as the declared types, and each went
    through the caster of its type. *)
Lemma ctor_call_loaded :
  Forall2 (fun ty v => ∃ o, load sampler true ty o = Some v)
          (ctor_types t) (con_args con).
Proof using Ht Hcall.
  ctor_inv Ht Hcall. simpl.
  pose proof (try_overload_loaded _ _ _ _ _ _ _ Htry Hsig) as Hall.
  inversion Hall; by simplify_eq/=.
Qed.
End ctor_call.

Lemma ctor_call_keyword_names t args kwargs con k :
  t ∈ variants →
  call_class sampler (the_class t) args kwargs = inr con →
  is_Some (kwargs !! k) → k ∈ arg_name <$> ctor_params t.
Proof.
  intros Ht Hcall Hk.
  destruct (ctor_call_keywords t Ht _ _ _ Hcall k Hk) as (i & r & Hi & <- & _).
  apply list_elem_of_fmap. exists r. split; [done|].
  by eapply list_elem_of_lookup_2.
Qed.

(** A Python name that resolves to a class calls that class. *)
Lemma construct_found name c args kwargs :
  find_name sampler name = Some c →
  construct name args kwargs = call_class sampler c args kwargs.
Proof. intros H. unfold construct. by rewrite H. Qed.

(** What the casters of the header's parameter types return. *)
Lemma load_int_inv m conv o v :
  load m conv Int o = Some v → ∃ z, o = Int_ z ∧ v = Cpp.VInt z.
Proof.
  destruct o; simpl; try done.
  destruct (in_int_range z); [|done]. intros [= <-]. eauto.
Qed.

Lemma load_int_in_range m conv z :
  in_int_range z = true → load m conv Int (Int_ z) = Some (Cpp.VInt z).
Proof. intros Hz. simpl. by rewrite Hz. Qed.

Lemma load_vector_inv m conv ty o v :
  load m conv (Vector ty) o = Some v → ∃ l, v = Cpp.VVec l.
Proof.
  destruct o; simpl; try done.
  destruct (mapM _ _); simpl; [|done]. intros [= <-]. eauto.
Qed.

Lemma mapM_fmap_Some {A B C} (f : B → option C) (g : A → B) (h : A → C)
    (l : list A) :
  Forall (fun x => f (g x) = Some (h x)) l →
  mapM f (g <$> l) = Some (h <$> l).
Proof.
  induction 1 as [|x l Hx _ IH]; [done|].
  rewrite !fmap_cons. cbn [mapM]. by rewrite Hx, IH.
Qed.

Lemma load_matrices m conv ids :
  load m conv (ConstRef (Vector MatType)) (List_ (Matrix_ <$> ids))
  = Some (Cpp.VVec (Cpp.VMat <$> ids)).
Proof.
  cbn [load]. rewrite (mapM_fmap_Some _ _ Cpp.VMat); [done|].
  by apply Forall_forall.
Qed.

Lemma load_ints m conv zs :
  Forall (fun z => in_int_range z = true) zs →
  load m conv (Vector Int) (List_ (Int_ <$> zs))
  = Some (Cpp.VVec (Cpp.VInt <$> zs)).
Proof.
  intros Hzs. cbn [load]. rewrite (mapM_fmap_Some _ _ Cpp.VInt); [done|].
  eapply Forall_impl; [exact Hzs|]. intros z Hz. simpl. by rewrite Hz.
Qed.

Lemma load_sites m conv sites :
  Forall (Forall (fun z => in_int_range z = true)) sites →
  load m conv (ConstRef (Vector (Vector Int)))
       (List_ ((fun l => List_ (Int_ <$> l)) <$> sites))
  = Some (Cpp.VVec ((fun l => Cpp.VVec (Cpp.VInt <$> l)) <$> sites)).
Proof.
  intros Hs. cbn [load].
  rewrite (mapM_fmap_Some _ _ (fun l => Cpp.VVec (Cpp.VInt <$> l)));
    [done|].
  eapply Forall_impl; [exact Hs|]. intros l Hl.
  exact (load_ints m conv l Hl).
Qed.

Lemma load_ref m conv ty o : load m conv (Ref ty) o = load m conv ty o.
Proof. done. Qed.

Lemma load_const_ref m conv ty o :
  load m conv (ConstRef ty) o = load m conv ty o.
Proof. done. Qed.

End SamplerFacts.

(* ===================================================================== *)
(** ** The registered classes *)
(* ===================================================================== *)

Module Surface.
Import Py Binding Sampler Dispatch Netket DispatchFacts SamplerFacts.
Import Cpp (class(..), type(..)).

(** C1.  Each of the ten sampler variants binds exactly the five member
    functions of the sampler contract, [Reset], [Sweep], [Visible],
    [SetVisible] and [Acceptance] of its own class, under the Python names
    [reset], [sweep], [get_visible], [set_visible] and [acceptance], each
    once; no other member function is bound, and the only other name a
    caller finds on the class, inherited names included, is the
    constructor. *)
Theorem contract_is_the_whole_surface t :
  t ∈ variants →
  ∃ c, find_class sampler t = Some c ∧
       bound_methods c = contract t ∧
       (cl_dict c).*1 = "__init__" :: (contract t).*1 ∧
       dir sampler c = "__init__" :: (contract t).*1.
Proof.
  intros Ht. exists (the_class t).
  split; [apply registered; by apply list_elem_of_further|].
  revert t Ht. apply Forall_forall.
  repeat apply Forall_cons_2; try apply Forall_nil_2;
    repeat split; vm_compute; reflexivity.
Qed.

Lemma contract_is_the_whole_surface_witness :
  CustomSamplerPt ∈ variants ∧
  ∃ c, find_class sampler CustomSamplerPt = Some c ∧
       bound_methods c = contract CustomSamplerPt ∧
       (cl_dict c).*1 = "__init__" :: (contract CustomSamplerPt).*1 ∧
       dir sampler c = "__init__" :: (contract CustomSamplerPt).*1.
Proof.
  assert (CustomSamplerPt ∈ variants) as Hin
    by (apply (bool_decide_unpack _); vm_compute; reflexivity).
  split; [exact Hin|].
  exact (contract_is_the_whole_surface CustomSamplerPt Hin).
Defined.

(** C8.  The abstract class is registered once, as [Sampler], with no
    parent; each of the ten variants is registered with it as parent, so
    the variant is a subclass and an instance of the variant is accepted by
    the caster of a parameter of the abstract type. *)
Theorem variants_derive_from_Sampler t :
  t ∈ variants →
  (∃ c0, find_name sampler "Sampler" = Some c0 ∧
         cl_type c0 = AbSamplerType ∧ cl_base c0 = None) ∧
  (∃ c, find_class sampler t = Some c ∧
        cl_base c = Some AbSamplerType) ∧
  issubclass sampler t AbSamplerType = true ∧
  ∀ convert id,
    load sampler convert (Ref (Class AbSamplerType)) (Instance t id)
    = Some (Cpp.VObj t id).
Proof.
  intros Ht. split; [eexists; by vm_compute|].
  assert (issubclass sampler t AbSamplerType = true) as Hsub.
  { revert t Ht. apply Forall_forall.
    repeat apply Forall_cons_2; try apply Forall_nil_2;
      vm_compute; reflexivity. }
  split; [|split; [done|]].
  - exists (the_class t).
    split; [apply registered; by apply list_elem_of_further|].
    revert t Ht Hsub. apply (Forall_forall (fun t => _ → _)).
    repeat apply Forall_cons_2; try apply Forall_nil_2;
      intros _; vm_compute; reflexivity.
  - intros convert id. simpl. by rewrite Hsub.
Qed.

Lemma variants_derive_from_Sampler_witness :
  ExactSampler ∈ variants ∧
  issubclass sampler ExactSampler AbSamplerType = true ∧
  load sampler false (Ref (Class AbSamplerType)) (Instance ExactSampler 7)
  = Some (Cpp.VObj ExactSampler 7).
Proof.
  assert (ExactSampler ∈ variants) as Hin
    by (apply (bool_decide_unpack _); vm_compute; reflexivity).
  destruct (variants_derive_from_Sampler ExactSampler Hin)
    as (_ & _ & Hsub & Hload).
  exact (conj Hin (conj Hsub (Hload false 7%nat))).
Defined.

(** Every class of the module, by its Python name. *)
Lemma find_name_cases name c :
  find_name sampler name = Some c →
  c = the_class AbSamplerType ∨ ∃ t, t ∈ variants ∧ c = the_class t.
Proof.
  intros [Hin _]%find_some. apply list_elem_of_In in Hin.
  assert (sampler = the_class AbSamplerType :: (the_class <$> variants))
    as Heq by (vm_compute; reflexivity).
  rewrite Heq in Hin. apply elem_of_cons in Hin as [->|Hin]; [by left|].
  apply list_elem_of_fmap in Hin as (t & -> & Ht). right. eauto.
Qed.

(** C9.  The abstract class [Sampler] carries the five contract methods
    and no constructor; calling it raises pybind11's "no constructor"
    error whatever the arguments; and whenever a call of a name of the
    module reaches a C++ constructor, it is the constructor of one of the
    ten variants. *)
Theorem Sampler_is_not_instantiable :
  (∃ c, find_name sampler "Sampler" = Some c ∧
        cl_type c = AbSamplerType ∧
        bound_methods c = contract AbSamplerType ∧
        bound_inits c = [] ∧
        lookup_attr sampler c "__init__" = None) ∧
  (∀ args kwargs,
     construct "Sampler" args kwargs = inl TypeError_NoConstructor) ∧
  (∀ name args kwargs con,
     construct name args kwargs = inr con → con_class con ∈ variants).
Proof.
  split; [eexists; repeat split; vm_compute; reflexivity|]. split.
  - intros args kwargs.
    rewrite (construct_found "Sampler" (the_class AbSamplerType))
      by (vm_compute; reflexivity).
    apply call_class_no_init. vm_compute; reflexivity.
  - intros name args kwargs con. unfold construct.
    destruct (find_name sampler name) as [c|] eqn:Hname; [|done].
    destruct (find_name_cases _ _ Hname) as [->|(t & Ht & ->)].
    + rewrite call_class_no_init by (vm_compute; reflexivity). done.
    + intros Hcall. by rewrite (ctor_call_class t Ht _ _ _ Hcall).
Qed.

Lemma Sampler_is_not_instantiable_witness :
  construct "ExactSampler" [Instance AbMachineType 3] ∅
  = inr (mk_construction ExactSampler [Cpp.VObj AbMachineType 3]) ∧
  ExactSampler ∈ variants.
Proof.
  assert (construct "ExactSampler" [Instance AbMachineType 3] ∅
          = inr (mk_construction ExactSampler [Cpp.VObj AbMachineType 3]))
    as Hcall by (vm_compute; reflexivity).
  split; [exact Hcall|].
  exact (proj2 (proj2 Sampler_is_not_instantiable) _ _ _ _ Hcall).
Defined.

End Surface.

(* ===================================================================== *)
(** ** Constructor signatures *)
(* ===================================================================== *)

Module Constructors.
Import Py Binding Sampler Dispatch Netket DispatchFacts SamplerFacts.
Import Cpp (class(..), type(..)).

Ltac is_variant := apply (bool_decide_unpack _); vm_compute; reflexivity.

(** Replaces a call by Python name with the call of the class [t]. *)
Ltac by_class H name t :=
  rewrite (construct_found name (the_class t)) in H
    by (vm_compute; reflexivity).

(** Shows that a call is accepted with given C++ arguments: the overload is
    opened step by step, and a symbolic integer goes through the range
    check by a hypothesis of the context. *)
Ltac loads :=
  repeat first
    [ reflexivity
    | eapply load_all_cons;
      [ first [ apply load_int_in_range; assumption
              | apply load_matrices
              | apply load_sites; assumption
              | vm_compute; reflexivity ] | ] ].

Ltac accepted name t :=
  rewrite (construct_found name (the_class t)) by (vm_compute; reflexivity);
  erewrite call_class_single by (vm_compute; reflexivity);
  erewrite try_overload_intro;
    [ | vm_compute; reflexivity | vm_compute; reflexivity
      | simpl; lia | vm_compute; reflexivity | vm_compute; reflexivity ];
  match goal with
  | |- match ?l with _ => _ end = _ =>
      let H := fresh in
      eassert (l = Some _) as H by (simpl app; loads);
      rewrite H; reflexivity
  end.

(** C2, as the options table words it, does not hold: the Hamiltonian
    sampler has no parameter called [hamiltonian_operator], and a call that
    passes the operator under that keyword is rejected. *)
Lemma hamiltonian_operator_is_not_a_keyword :
  ¬ requires_exactly MetropolisHamiltonian ["machine"; "hamiltonian_operator"]
  ∧ construct "MetropolisHamiltonian" []
      (keywords [("machine", Instance AbMachineType 0);
                 ("hamiltonian_operator", Instance AbstractOperator 1)])
    = inl TypeError_IncompatibleArguments.
Proof.
  split; [|vm_compute; reflexivity].
  intros [Hnames _]. vm_compute in Hnames. discriminate Hnames.
Qed.

(** C2, amended.  The Hop constructor declares exactly [graph], [machine]
    and [d_max], none with a default; the Hamiltonian constructor declares
    exactly [machine] and [hamiltonian], none with a default.  An accepted
    call gives every one of them, by position or under that keyword, and
    uses no other keyword; given under these keywords the values reach the
    constructor. *)
Theorem hop_and_hamiltonian_signatures :
  requires_exactly MetropolisHop ["graph"; "machine"; "d_max"] ∧
  requires_exactly MetropolisHamiltonian ["machine"; "hamiltonian"] ∧
  (∀ args kwargs con,
     construct "MetropolisHop" args kwargs = inr con →
     given 0 "graph" args kwargs ∧ given 1 "machine" args kwargs ∧
     given 2 "d_max" args kwargs ∧
     ∀ k, is_Some (kwargs !! k) → k ∈ ["graph"; "machine"; "d_max"]) ∧
  (∀ args kwargs con,
     construct "MetropolisHamiltonian" args kwargs = inr con →
     given 0 "machine" args kwargs ∧ given 1 "hamiltonian" args kwargs ∧
     ∀ k, is_Some (kwargs !! k) → k ∈ ["machine"; "hamiltonian"]) ∧
  (∀ g m d,
     in_int_range d = true →
     construct "MetropolisHop" []
       (keywords [("graph", Instance AbstractGraph g);
                  ("machine", Instance AbMachineType m);
                  ("d_max", Int_ d)])
     = inr (mk_construction MetropolisHop
              [Cpp.VObj AbstractGraph g; Cpp.VObj AbMachineType m;
               Cpp.VInt d])) ∧
  (∀ m h,
     construct "MetropolisHamiltonian" []
       (keywords [("machine", Instance AbMachineType m);
                  ("hamiltonian", Instance AbstractOperator h)])
     = inr (mk_construction MetropolisHamiltonian
              [Cpp.VObj AbMachineType m; Cpp.VObj AbstractOperator h])).
Proof.
  assert (MetropolisHop ∈ variants) as Hhop by is_variant.
  assert (MetropolisHamiltonian ∈ variants) as Hham by is_variant.
  split; [split; [vm_compute; reflexivity|]|].
  { change (ctor_params MetropolisHop)
      with [arg "graph"; arg "machine"; arg "d_max"].
    repeat constructor. }
  split; [split; [vm_compute; reflexivity|]|].
  { change (ctor_params MetropolisHamiltonian)
      with [arg "machine"; arg "hamiltonian"].
    repeat constructor. }
  split; [|split; [|split]].
  - intros args kwargs con Hcall. by_class Hcall "MetropolisHop" MetropolisHop.
    repeat split.
    + by apply (ctor_call_required _ Hhop _ _ _ Hcall 0 (arg "graph")).
    + by apply (ctor_call_required _ Hhop _ _ _ Hcall 1 (arg "machine")).
    + by apply (ctor_call_required _ Hhop _ _ _ Hcall 2 (arg "d_max")).
    + intros k Hk. exact (ctor_call_keyword_names _ _ _ _ k Hhop Hcall Hk).
  - intros args kwargs con Hcall.
    by_class Hcall "MetropolisHamiltonian" MetropolisHamiltonian.
    repeat split.
    + by apply (ctor_call_required _ Hham _ _ _ Hcall 0 (arg "machine")).
    + by apply (ctor_call_required _ Hham _ _ _ Hcall 1 (arg "hamiltonian")).
    + intros k Hk. exact (ctor_call_keyword_names _ _ _ _ k Hham Hcall Hk).
  - intros g m d Hd. accepted "MetropolisHop" MetropolisHop.
  - intros m h. vm_compute. reflexivity.
Qed.

Lemma hop_and_hamiltonian_signatures_witness :
  in_int_range 2 = true ∧
  construct "MetropolisHop" []
    (keywords [("graph", Instance AbstractGraph 0);
               ("machine", Instance AbMachineType 1); ("d_max", Int_ 2)])
  = inr (mk_construction MetropolisHop
           [Cpp.VObj AbstractGraph 0; Cpp.VObj AbMachineType 1;
            Cpp.VInt 2]) ∧
  given 1 "hamiltonian" [Instance AbMachineType 1]
    (keywords [("hamiltonian", Instance AbstractOperator 4)]).
Proof.
  assert (in_int_range 2 = true) as Hd by reflexivity.
  assert (construct "MetropolisHamiltonian" [Instance AbMachineType 1]
            (keywords [("hamiltonian", Instance AbstractOperator 4)])
          = inr (mk_construction MetropolisHamiltonian
                   [Cpp.VObj AbMachineType 1; Cpp.VObj AbstractOperator 4]))
    as Hcall by (vm_compute; reflexivity).
  destruct hop_and_hamiltonian_signatures
    as (_ & _ & _ & Hham & Hhop & _).
  split; [exact Hd|]. split; [exact (Hhop 0%nat 1%nat 2%Z Hd)|].
  exact (proj1 (proj2 (Hham _ _ _ Hcall))).
Defined.

(** C3.  The Exchange constructor declares [graph] and [machine] without
    default and then [d_max] with default [1].  Called with a graph and a
    machine only, it constructs the sampler with [d_max = 1]; an accepted
    call always gives [graph] and [machine]; and whenever [d_max] is given
    neither by position nor by keyword, the C++ constructor receives 1. *)
Theorem exchange_d_max_defaults_to_1 :
  ctor_params MetropolisExchange
  = [arg "graph"; arg "machine"; "d_max" =: Int_ 1] ∧
  (∀ g m,
     construct "MetropolisExchange"
       [Instance AbstractGraph g; Instance AbMachineType m] ∅
     = inr (mk_construction MetropolisExchange
              [Cpp.VObj AbstractGraph g; Cpp.VObj AbMachineType m;
               Cpp.VInt 1])) ∧
  (∀ args kwargs con,
     construct "MetropolisExchange" args kwargs = inr con →
     given 0 "graph" args kwargs ∧ given 1 "machine" args kwargs ∧
     (¬ given 2 "d_max" args kwargs →
      con_args con !! 2 = Some (Cpp.VInt 1))).
Proof.
  assert (MetropolisExchange ∈ variants) as Hin by is_variant.
  split; [vm_compute; reflexivity|].
  split; [intros g m; vm_compute; reflexivity|].
  intros args kwargs con Hcall.
  by_class Hcall "MetropolisExchange" MetropolisExchange.
  repeat split.
  - by apply (ctor_call_required _ Hin _ _ _ Hcall 0 (arg "graph")).
  - by apply (ctor_call_required _ Hin _ _ _ Hcall 1 (arg "machine")).
  - intros Hnot.
    by rewrite (ctor_call_default _ Hin _ _ _ Hcall 2
                  ("d_max" =: Int_ 1) Int (Int_ 1)).
Qed.

Lemma exchange_d_max_defaults_to_1_witness :
  construct "MetropolisExchange" [Instance AbstractGraph 0]
    (keywords [("machine", Instance AbMachineType 1)])
  = inr (mk_construction MetropolisExchange
           [Cpp.VObj AbstractGraph 0; Cpp.VObj AbMachineType 1;
            Cpp.VInt 1]) ∧
  given 1 "machine" [Instance AbstractGraph 0]
    (keywords [("machine", Instance AbMachineType 1)]).
Proof.
  assert (construct "MetropolisExchange" [Instance AbstractGraph 0]
            (keywords [("machine", Instance AbMachineType 1)])
          = inr (mk_construction MetropolisExchange
                   [Cpp.VObj AbstractGraph 0; Cpp.VObj AbMachineType 1;
                    Cpp.VInt 1])) as Hcall by (vm_compute; reflexivity).
  split; [exact Hcall|].
  exact (proj1 (proj2
           (proj2 (proj2 exchange_d_max_defaults_to_1) _ _ _ Hcall))).
Defined.

(** C4.  The ExchangePt constructor declares [graph] and [machine] without
    default, then [d_max] with default [1] and [n_replicas] with default
    [1].  Called with a graph and a machine only, it constructs the sampler
    with both equal to 1; an accepted call always gives [graph] and
    [machine]; and each of the two optional parameters, when it is given
    neither by position nor by keyword, reaches C++ as 1. *)
Theorem exchange_pt_defaults :
  ctor_params MetropolisExchangePt
  = [arg "graph"; arg "machine"; "d_max" =: Int_ 1;
     "n_replicas" =: Int_ 1] ∧
  (∀ g m,
     construct "MetropolisExchangePt"
       [Instance AbstractGraph g; Instance AbMachineType m] ∅
     = inr (mk_construction MetropolisExchangePt
              [Cpp.VObj AbstractGraph g; Cpp.VObj AbMachineType m;
               Cpp.VInt 1; Cpp.VInt 1])) ∧
  (∀ args kwargs con,
     construct "MetropolisExchangePt" args kwargs = inr con →
     given 0 "graph" args kwargs ∧ given 1 "machine" args kwargs ∧
     (¬ given 2 "d_max" args kwargs →
      con_args con !! 2 = Some (Cpp.VInt 1)) ∧
     (¬ given 3 "n_replicas" args kwargs →
      con_args con !! 3 = Some (Cpp.VInt 1))).
Proof.
  assert (MetropolisExchangePt ∈ variants) as Hin by is_variant.
  split; [vm_compute; reflexivity|].
  split; [intros g m; vm_compute; reflexivity|].
  intros args kwargs con Hcall.
  by_class Hcall "MetropolisExchangePt" MetropolisExchangePt.
  repeat split.
  - by apply (ctor_call_required _ Hin _ _ _ Hcall 0 (arg "graph")).
  - by apply (ctor_call_required _ Hin _ _ _ Hcall 1 (arg "machine")).
  - intros Hnot.
    by rewrite (ctor_call_default _ Hin _ _ _ Hcall 2
                  ("d_max" =: Int_ 1) Int (Int_ 1)).
  - intros Hnot.
    by rewrite (ctor_call_default _ Hin _ _ _ Hcall 3
                  ("n_replicas" =: Int_ 1) Int (Int_ 1)).
Qed.

Lemma exchange_pt_defaults_witness :
  construct "MetropolisExchangePt"
    [Instance AbstractGraph 0; Instance AbMachineType 1]
    (keywords [("n_replicas", Int_ 8)])
  = inr (mk_construction MetropolisExchangePt
           [Cpp.VObj AbstractGraph 0; Cpp.VObj AbMachineType 1;
            Cpp.VInt 1; Cpp.VInt 8]) ∧
  ¬ given 2 "d_max" [Instance AbstractGraph 0; Instance AbMachineType 1]
      (keywords [("n_replicas", Int_ 8)]) ∧
  [Cpp.VObj AbstractGraph 0; Cpp.VObj AbMachineType 1; Cpp.VInt 1;
   Cpp.VInt 8] !! 2%nat = Some (Cpp.VInt 1).
Proof.
  assert (construct "MetropolisExchangePt"
            [Instance AbstractGraph 0; Instance AbMachineType 1]
            (keywords [("n_replicas", Int_ 8)])
          = inr (mk_construction MetropolisExchangePt
                   [Cpp.VObj AbstractGraph 0; Cpp.VObj AbMachineType 1;
                    Cpp.VInt 1; Cpp.VInt 8])) as Hcall
    by (vm_compute; reflexivity).
  assert (¬ given 2 "d_max"
            [Instance AbstractGraph 0; Instance AbMachineType 1]
            (keywords [("n_replicas", Int_ 8)])) as Hnot.
  { intros [Hpos|[x Hkw]]; [simpl in Hpos; lia|].
    vm_compute in Hkw. discriminate Hkw. }
  split; [exact Hcall|]. split; [exact Hnot|].
  exact (proj1 (proj2 (proj2
           (proj2 (proj2 exchange_pt_defaults) _ _ _ Hcall))) Hnot).
Defined.

(** C5, at the input on which the binding departs from the options table:
    a CustomSamplerPt call that names the replica count [n_replicas], as
    the table and the three other parallel-tempering bindings do, is
    rejected for its arguments; the same call with the keyword spelt
    [nreplicas] is accepted, [move_weights] taking the empty vector. *)
Theorem custom_pt_rejects_n_replicas :
  construct "CustomSamplerPt" []
    (keywords [("machine", Instance AbMachineType 0);
               ("move_operators", List_ [Matrix_ 0]);
               ("acting_on", List_ [List_ [Int_ 0]]);
               ("n_replicas", Int_ 2)])
  = inl TypeError_IncompatibleArguments ∧
  construct "CustomSamplerPt" []
    (keywords [("machine", Instance AbMachineType 0);
               ("move_operators", List_ [Matrix_ 0]);
               ("acting_on", List_ [List_ [Int_ 0]]);
               ("nreplicas", Int_ 2)])
  = inr (mk_construction CustomSamplerPt
           [Cpp.VObj AbMachineType 0; Cpp.VVec [Cpp.VMat 0];
            Cpp.VVec [Cpp.VVec [Cpp.VInt 0]]; Cpp.VVec []; Cpp.VInt 2]).
Proof. split; vm_compute; reflexivity. Qed.

(** C10.  The CustomSamplerPt constructor declares its replica count last,
    under the keyword [nreplicas] and with no default, after the defaulted
    [move_weights]; the three other parallel-tempering constructors call
    theirs [n_replicas].  An accepted CustomSamplerPt call never uses the
    keyword [n_replicas], and it either passes [nreplicas] by keyword or
    passes five positional arguments, the fourth being [move_weights] and
    the fifth the replica count. *)
Theorem custom_pt_replicas_keyword :
  ctor_params CustomSamplerPt
  = [arg "machine"; arg "move_operators"; arg "acting_on";
     "move_weights" =: List_ []; arg "nreplicas"] ∧
  Forall (fun t => last (arg_name <$> ctor_params t) = Some "n_replicas")
         [MetropolisLocalPt; MetropolisHamiltonianPt; MetropolisExchangePt] ∧
  (∀ args kwargs con,
     construct "CustomSamplerPt" args kwargs = inr con →
     kwargs !! "n_replicas" = None ∧
     (is_Some (kwargs !! "nreplicas") ∨
      ∃ w n, args !! 3%nat = Some w ∧ args !! 4%nat = Some n ∧
             con_args con !! 3%nat = load sampler true (Vector Double) w ∧
             con_args con !! 4%nat = load sampler true Int n)).
Proof.
  assert (CustomSamplerPt ∈ variants) as Hin by is_variant.
  split; [vm_compute; reflexivity|].
  split; [repeat constructor|].
  intros args kwargs con Hcall.
  by_class Hcall "CustomSamplerPt" CustomSamplerPt.
  split.
  - apply eq_None_not_Some. intros Hk.
    apply (ctor_call_keyword_names _ _ _ _ _ Hin Hcall) in Hk.
    vm_compute in Hk.
    repeat (apply elem_of_cons in Hk as [Hk|Hk]; [discriminate Hk|]).
    by apply elem_of_nil in Hk.
  - destruct (ctor_call_required _ Hin _ _ _ Hcall 4 (arg "nreplicas"))
      as [Hpos|Hkw]; [done..| |by left].
    right.
    destruct (lookup_lt_is_Some_2 args 3) as [w Hw]; [lia|].
    destruct (lookup_lt_is_Some_2 args 4) as [n Hn]; [lia|].
    exists w, n. repeat split; [done..| |].
    + by apply (ctor_call_positional _ Hin _ _ _ Hcall 3).
    + by apply (ctor_call_positional _ Hin _ _ _ Hcall 4).
Qed.

Lemma custom_pt_replicas_keyword_witness :
  construct "CustomSamplerPt"
    [Instance AbMachineType 0; List_ [Matrix_ 0]; List_ [List_ [Int_ 0]]]
    (keywords [("nreplicas", Int_ 2)])
  = inr (mk_construction CustomSamplerPt
           [Cpp.VObj AbMachineType 0; Cpp.VVec [Cpp.VMat 0];
            Cpp.VVec [Cpp.VVec [Cpp.VInt 0]]; Cpp.VVec []; Cpp.VInt 2]) ∧
  keywords [("nreplicas", Int_ 2)] !! "n_replicas" = None.
Proof.
  assert (construct "CustomSamplerPt"
            [Instance AbMachineType 0; List_ [Matrix_ 0];
             List_ [List_ [Int_ 0]]]
            (keywords [("nreplicas", Int_ 2)])
          = inr (mk_construction CustomSamplerPt
                   [Cpp.VObj AbMachineType 0; Cpp.VVec [Cpp.VMat 0];
                    Cpp.VVec [Cpp.VVec [Cpp.VInt 0]]; Cpp.VVec [];
                    Cpp.VInt 2])) as Hcall by (vm_compute; reflexivity).
  split; [exact Hcall|].
  exact (proj1 (proj2 (proj2 custom_pt_replicas_keyword) _ _ _ Hcall)).
Defined.

End Constructors.

(* ===================================================================== *)
(** ** Construction through the bindings *)
(* ===================================================================== *)

Module Construction.
Import Py Binding Sampler Dispatch Netket DispatchFacts SamplerFacts.
Import Constructors.
Import Cpp (class(..), type(..)).

Lemma check_d_max_error d e :
  Core.check_d_max d = Some e → e = Core.ConstructionError.
Proof. unfold Core.check_d_max. destruct (_ <=? _)%Z; congruence. Qed.

Lemma move_operator_set_error ops sites ws e :
  Core.move_operator_set ops sites ws = inl e → e = Core.ConstructionError.
Proof.
  unfold Core.move_operator_set.
  destruct (negb _); [congruence|].
  destruct ws; [congruence|]. destruct (negb _); congruence.
Qed.

Lemma move_operator_set_mismatch ops sites ws :
  length ops ≠ length sites →
  Core.move_operator_set ops sites ws = inl Core.ConstructionError.
Proof.
  intros Hne. unfold Core.move_operator_set.
  by rewrite (proj2 (Nat.eqb_neq _ _) Hne).
Qed.

Lemma move_operator_set_unset ops sites :
  length ops = length sites →
  Core.move_operator_set ops sites []
  = inr (replicate (length ops) 1%Q).
Proof.
  intros Heq. unfold Core.move_operator_set.
  by rewrite (proj2 (Nat.eqb_eq _ _) Heq).
Qed.

Lemma selection_weights_replicate t n k :
  Core.selection_weights (Core.mk_instance t k (replicate n 1%Q))
  = replicate n 1%Q.
Proof.
  unfold Core.selection_weights. simpl.
  destruct (forallb _ _); [by rewrite length_replicate|done].
Qed.

Lemma uniform_replicate n (q : Q) : Core.uniform (replicate n q).
Proof.
  intros i j x y [-> _]%lookup_replicate [-> _]%lookup_replicate. done.
Qed.

(** The shape of the C++ arguments of an accepted call, read off the
    declared parameter types. *)
Ltac shape Hin Hcall :=
  let Hall := fresh "Hall" in
  pose proof (ctor_call_loaded _ Hin _ _ _ Hcall) as Hall;
  pose proof (ctor_call_class _ Hin _ _ _ Hcall) as Hclass;
  match type of Hall with
  | Forall2 _ ?ts _ => let ts' := eval vm_compute in ts in
                       change ts with ts' in Hall
  end;
  repeat match goal with
         | H : Forall2 _ (_ :: _) _ |- _ =>
             apply Forall2_cons_inv_l in H as (? & ? & [? ?] & H & ?)
         | H : Forall2 _ [] _ |- _ => apply Forall2_nil_inv_l in H
         end;
  repeat match goal with
         | H : load _ _ (Ref _) _ = _ |- _ => rewrite load_ref in H
         | H : load _ _ (ConstRef _) _ = _ |- _ => rewrite load_const_ref in H
         end;
  repeat match goal with
         | H : load _ _ Int _ = Some _ |- _ =>
             apply load_int_inv in H as (? & _ & ?)
         | H : load _ _ (Vector _) _ = Some _ |- _ =>
             apply load_vector_inv in H as [? ?]
         end.

(** C6.  The Custom constructor declares [move_weights] last, with the
    empty vector as default.  A call that passes a machine, move operators
    and [acting_on] lists only is accepted.  When an accepted call gives
    [move_weights] neither by position nor by keyword, the C++ constructor
    receives the empty vector,
    and the sampler it builds (for as many [acting_on] entries as move
    operators) weighs every move operator by 1: the selection weights are
    uniform, one per operator. *)
Theorem custom_move_weights_default_uniform :
  ctor_params CustomSampler !! 3%nat = Some ("move_weights" =: List_ []) ∧
  (∀ m ids sites,
     Forall (Forall (fun z => in_int_range z = true)) sites →
     construct "CustomSampler"
       [Instance AbMachineType m; List_ (Matrix_ <$> ids);
        List_ ((fun l => List_ (Int_ <$> l)) <$> sites)] ∅
     = inr (mk_construction CustomSampler
              [Cpp.VObj AbMachineType m; Cpp.VVec (Cpp.VMat <$> ids);
               Cpp.VVec ((fun l => Cpp.VVec (Cpp.VInt <$> l)) <$> sites);
               Cpp.VVec []])) ∧
  (∀ args kwargs con,
     construct "CustomSampler" args kwargs = inr con →
     ¬ given 3 "move_weights" args kwargs →
     con_args con !! 3%nat = Some (Cpp.VVec []) ∧
     ∃ ops sites,
       con_args con !! 1%nat = Some (Cpp.VVec ops) ∧
       con_args con !! 2%nat = Some (Cpp.VVec sites) ∧
       (length ops = length sites →
        ∃ s, Core.new con = Some (inr s) ∧
             Core.selection_weights s = replicate (length ops) 1%Q ∧
             Core.uniform (Core.selection_weights s))).
Proof.
  assert (CustomSampler ∈ variants) as Hin by is_variant.
  split; [vm_compute; reflexivity|].
  split; [intros m ids sites Hsites; accepted "CustomSampler" CustomSampler|].
  intros args kwargs con Hcall Hnot.
  by_class Hcall "CustomSampler" CustomSampler.
  pose proof (ctor_call_default _ Hin _ _ _ Hcall 3
                ("move_weights" =: List_ []) (Vector Double) (List_ [])
                eq_refl eq_refl eq_refl Hnot) as Hw.
  change (load _ _ _ _) with (Some (Cpp.VVec [])) in Hw.
  split; [done|].
  shape Hin Hcall. destruct con as [cl cargs]. simpl in *. subst.
  injection Hw as ->.
  eexists _, _. repeat split. intros Hlen.
  unfold Core.new. simpl. rewrite move_operator_set_unset by done.
  eexists. split; [done|].
  rewrite selection_weights_replicate. split; [done|].
  apply uniform_replicate.
Qed.

Lemma custom_move_weights_default_uniform_witness :
  construct "CustomSampler"
    [Instance AbMachineType 0; List_ [Matrix_ 0; Matrix_ 1];
     List_ [List_ [Int_ 0]; List_ [Int_ 1; Int_ 2]]] ∅
  = inr (mk_construction CustomSampler
           [Cpp.VObj AbMachineType 0; Cpp.VVec [Cpp.VMat 0; Cpp.VMat 1];
            Cpp.VVec [Cpp.VVec [Cpp.VInt 0];
                      Cpp.VVec [Cpp.VInt 1; Cpp.VInt 2]];
            Cpp.VVec []]) ∧
  ¬ given 3 "move_weights"
      [Instance AbMachineType 0; List_ [Matrix_ 0; Matrix_ 1];
       List_ [List_ [Int_ 0]; List_ [Int_ 1; Int_ 2]]] ∅ ∧
  [Cpp.VObj AbMachineType 0; Cpp.VVec [Cpp.VMat 0; Cpp.VMat 1];
   Cpp.VVec [Cpp.VVec [Cpp.VInt 0]; Cpp.VVec [Cpp.VInt 1; Cpp.VInt 2]];
   Cpp.VVec []] !! 3%nat = Some (Cpp.VVec []).
Proof.
  assert (construct "CustomSampler"
            [Instance AbMachineType 0; List_ [Matrix_ 0; Matrix_ 1];
             List_ [List_ [Int_ 0]; List_ [Int_ 1; Int_ 2]]] ∅
          = inr (mk_construction CustomSampler
                   [Cpp.VObj AbMachineType 0;
                    Cpp.VVec [Cpp.VMat 0; Cpp.VMat 1];
                    Cpp.VVec [Cpp.VVec [Cpp.VInt 0];
                              Cpp.VVec [Cpp.VInt 1; Cpp.VInt 2]];
                    Cpp.VVec []])) as Hcall by (vm_compute; reflexivity).
  assert (¬ given 3 "move_weights"
            [Instance AbMachineType 0; List_ [Matrix_ 0; Matrix_ 1];
             List_ [List_ [Int_ 0]; List_ [Int_ 1; Int_ 2]]] ∅) as Hnot.
  { intros [Hpos|[x Hkw]]; [simpl in Hpos; lia|].
    vm_compute in Hkw. discriminate Hkw. }
  split; [exact Hcall|]. split; [exact Hnot|].
  exact (proj1 (proj2 (proj2 custom_move_weights_default_uniform)
                  _ _ _ Hcall Hnot)).
Defined.

(** C7.  A parallel-tempering constructor that receives the replica count
    0 from an accepted call fails with [ConstructionError], and so does the
    Custom constructor when it receives move operators and [acting_on]
    entries in different numbers; in neither case is a sampler built. *)
Theorem zero_replicas_and_mismatch_fail :
  (∀ name t args kwargs con,
     (name, t) ∈ pt_names →
     construct name args kwargs = inr con →
     replica_count con = Some 0%Z →
     Core.new con = Some (inl Core.ConstructionError) ∧
     ∀ s, Core.new con ≠ Some (inr s)) ∧
  (∀ args kwargs con ops sites,
     construct "CustomSampler" args kwargs = inr con →
     con_args con !! 1%nat = Some (Cpp.VVec ops) →
     con_args con !! 2%nat = Some (Cpp.VVec sites) →
     length ops ≠ length sites →
     Core.new con = Some (inl Core.ConstructionError) ∧
     ∀ s, Core.new con ≠ Some (inr s)).
Proof.
  assert (∀ con, Core.new con = Some (inl Core.ConstructionError) →
                 Core.new con = Some (inl Core.ConstructionError) ∧
                 ∀ s, Core.new con ≠ Some (inr s)) as Hnever.
  { intros con ->. split; [done|]. intros s. discriminate. }
  split.
  - intros name t args kwargs con Hpt Hcall Hzero. apply Hnever.
    repeat (apply elem_of_cons in Hpt as [Hpt|Hpt];
            [injection Hpt as -> ->|]); [..|by apply elem_of_nil in Hpt].
    + assert (MetropolisLocalPt ∈ variants) as Hin by is_variant.
      by_class Hcall "MetropolisLocalPt" MetropolisLocalPt.
      shape Hin Hcall. destruct con as [cl cargs]. simpl in *. subst.
      injection Hzero as ->. reflexivity.
    + assert (MetropolisHamiltonianPt ∈ variants) as Hin by is_variant.
      by_class Hcall "MetropolisHamiltonianPt" MetropolisHamiltonianPt.
      shape Hin Hcall. destruct con as [cl cargs]. simpl in *. subst.
      injection Hzero as ->. reflexivity.
    + assert (MetropolisExchangePt ∈ variants) as Hin by is_variant.
      by_class Hcall "MetropolisExchangePt" MetropolisExchangePt.
      shape Hin Hcall. destruct con as [cl cargs]. simpl in *. subst.
      injection Hzero as ->. unfold Core.new. simpl.
      destruct (Core.check_d_max _) as [e|] eqn:Hd; [|reflexivity].
      by rewrite (check_d_max_error _ _ Hd).
    + assert (CustomSamplerPt ∈ variants) as Hin by is_variant.
      by_class Hcall "CustomSamplerPt" CustomSamplerPt.
      shape Hin Hcall. destruct con as [cl cargs]. simpl in *. subst.
      injection Hzero as ->. unfold Core.new. simpl.
      destruct (Core.move_operator_set _ _ _) as [e|w] eqn:Hm;
        [|reflexivity].
      by rewrite (move_operator_set_error _ _ _ _ Hm).
  - intros args kwargs con ops sites Hcall Hops Hsites Hne. apply Hnever.
    assert (CustomSampler ∈ variants) as Hin by is_variant.
    by_class Hcall "CustomSampler" CustomSampler.
    shape Hin Hcall. destruct con as [cl cargs]. simpl in *. subst.
    injection Hops as ->. injection Hsites as ->.
    unfold Core.new. simpl. by rewrite move_operator_set_mismatch.
Qed.

Lemma zero_replicas_and_mismatch_fail_witness :
  ("MetropolisLocalPt", MetropolisLocalPt) ∈ pt_names ∧
  construct "MetropolisLocalPt" [Instance AbMachineType 0]
    (keywords [("n_replicas", Int_ 0)])
  = inr (mk_construction MetropolisLocalPt
           [Cpp.VObj AbMachineType 0; Cpp.VInt 0]) ∧
  replica_count (mk_construction MetropolisLocalPt
                   [Cpp.VObj AbMachineType 0; Cpp.VInt 0]) = Some 0%Z ∧
  Core.new (mk_construction MetropolisLocalPt
              [Cpp.VObj AbMachineType 0; Cpp.VInt 0])
  = Some (inl Core.ConstructionError).
Proof.
  assert (("MetropolisLocalPt", MetropolisLocalPt) ∈ pt_names) as Hpt
    by (apply list_elem_of_here).
  assert (construct "MetropolisLocalPt" [Instance AbMachineType 0]
            (keywords [("n_replicas", Int_ 0)])
          = inr (mk_construction MetropolisLocalPt
                   [Cpp.VObj AbMachineType 0; Cpp.VInt 0])) as Hcall
    by (vm_compute; reflexivity).
  assert (replica_count (mk_construction MetropolisLocalPt
                           [Cpp.VObj AbMachineType 0; Cpp.VInt 0])
          = Some 0%Z) as Hzero by reflexivity.
  split; [exact Hpt|]. split; [exact Hcall|]. split; [exact Hzero|].
  exact (proj1 (proj1 zero_replicas_and_mismatch_fail
                  _ _ _ _ _ Hpt Hcall Hzero)).
Defined.

End Construction.

(* ===================================================================== *)
(** ** More on the dispatcher: when a call is accepted *)
(* ===================================================================== *)

Module CallFacts.
Import Py Binding Dispatch DispatchFacts.

(** The object Python's binding rule selects for parameter [i]: the
    positional argument if there is one, else the keyword of that name,
    else the declared default. *)
Definition bound_object (params : list Py.arg) (args : list object)
    (kwargs : gmap string object) (i : nat) : option object :=
  match args !! i with
  | Some o => Some o
  | None =>
      r ← params !! i;
      match kwargs !! arg_name r with
      | Some o => Some o
      | None => arg_value r
      end
  end.

Section fill_keywords_more.
Implicit Types (recs : list Py.arg) (kwargs rest : gmap string object).

(** With distinct names, step 2 succeeds as soon as every parameter left
    has a keyword or a default. *)
Lemma fill_keywords_complete recs kwargs :
  NoDup (arg_name <$> recs) →
  (∀ r, r ∈ recs → is_Some (kwargs !! arg_name r) ∨ is_Some (arg_value r)) →
  is_Some (fill_keywords recs kwargs).
Proof.
  revert kwargs.
  induction recs as [|r recs IH]; intros kwargs Hnd Hall; simpl; [eauto|].
  rewrite fmap_cons in Hnd. apply NoDup_cons in Hnd as [Hfresh Hnd].
  assert (∀ kw, (∀ k, k ≠ arg_name r → kw !! k = kwargs !! k) →
                is_Some (fill_keywords recs kw)) as Hrec.
  { intros kw Hkw. apply IH; [done|]. intros r' Hr'.
    rewrite Hkw; [apply Hall; by right|].
    intros Heq. apply Hfresh. rewrite <- Heq.
    apply list_elem_of_fmap. eauto. }
  destruct (kwargs !! arg_name r) as [v|] eqn:Hk.
  - destruct (Hrec (delete (arg_name r) kwargs)) as [[vs kw] ->]; [|by eauto].
    intros k Hne. by rewrite lookup_delete_ne.
  - destruct (Hall r) as [[? Hv]|[d Hd]]; [by left|congruence|].
    rewrite Hd. destruct (Hrec kwargs) as [[vs kw] ->]; by eauto.
Qed.

(** Adding the default of an omitted parameter as a keyword changes
    nothing. *)
Lemma fill_keywords_insert_default recs kwargs i r d :
  NoDup (arg_name <$> recs) →
  recs !! i = Some r → arg_value r = Some d →
  kwargs !! arg_name r = None →
  fill_keywords recs (<[arg_name r := d]> kwargs) = fill_keywords recs kwargs.
Proof.
  revert kwargs i.
  induction recs as [|r0 recs IH]; intros kwargs i Hnd Hi Hd Hno; [done|].
  rewrite fmap_cons in Hnd. apply NoDup_cons in Hnd as [Hfresh Hnd].
  destruct i as [|i]; simpl in Hi.
  - simplify_eq. simpl. rewrite lookup_insert_eq, Hno, Hd.
    by rewrite delete_insert_eq, delete_id.
  - assert (arg_name r0 ≠ arg_name r) as Hne.
    { intros Heq. apply Hfresh. rewrite Heq. apply list_elem_of_fmap.
      exists r. split; [done|]. by eapply list_elem_of_lookup_2. }
    simpl. rewrite lookup_insert_ne by done.
    destruct (kwargs !! arg_name r0) as [v|] eqn:Hk0.
    + rewrite delete_insert_ne by done.
      rewrite (IH _ i); [done..|]. by rewrite lookup_delete_ne.
    + destruct (arg_value r0); [|done]. by rewrite (IH _ i).
Qed.
End fill_keywords_more.

Section copy_positional_more.
Implicit Types (recs : list Py.arg) (kwargs : gmap string object).

(** Step 1 succeeds when no positional parameter is named by a keyword and
    no [None] stands where it is not allowed. *)
Lemma copy_positional_complete recs args kwargs :
  (∀ i r o, recs !! i = Some r → args !! i = Some o →
            kwargs !! arg_name r = None
            ∧ (arg_none r = true ∨ is_none o = false)) →
  copy_positional recs args kwargs = Some args.
Proof.
  revert recs.
  induction args as [|a args IH]; intros recs Hall; simpl; [done|].
  destruct recs as [|r recs]; simpl.
  - rewrite IH; [done|]. by intros [|?] ???.
  - destruct (Hall 0 r a) as [Hno Hnone]; [done..|].
    rewrite Hno. rewrite bool_decide_eq_false_2 by by intros [? ?].
    replace (negb (arg_none r) && is_none a) with false
      by by destruct Hnone as [->| ->]; [|rewrite andb_false_r].
    simpl. rewrite IH; [done|]. intros i. apply (Hall (S i)).
Qed.

(** Step 1 looks at the keywords only under the names of the positional
    parameters. *)
Lemma copy_positional_ext recs args kwargs kwargs' :
  (∀ i r, recs !! i = Some r → i < length args →
          is_Some (kwargs !! arg_name r) ↔ is_Some (kwargs' !! arg_name r)) →
  copy_positional recs args kwargs = copy_positional recs args kwargs'.
Proof.
  revert recs.
  induction args as [|a args IH]; intros recs Hall; simpl; [done|].
  destruct recs as [|r recs]; simpl.
  - by rewrite (IH []) by by intros [|?] ???.
  - rewrite (bool_decide_ext (is_Some (kwargs !! arg_name r))
                              (is_Some (kwargs' !! arg_name r)))
      by (apply (Hall 0 r); [done|simpl; lia]).
    rewrite (IH recs); [done|]. intros i r' Hr' Hi.
    apply (Hall (S i)); [done|simpl; lia].
Qed.
End copy_positional_more.

Section load_all_more.
Context (m : module) (convert : bool).

Lemma load_all_complete ts objs :
  Forall2 (fun t o => is_Some (load m convert t o)) ts objs →
  is_Some (load_all m convert ts objs).
Proof.
  induction 1 as [|t o ts objs [x Hx] _ [xs Hxs]]; simpl; [eauto|].
  rewrite Hx. simpl. rewrite Hxs. simpl. eauto.
Qed.
End load_all_more.

Section try_overload_more.
Context (m : module) (convert : bool) (f : function_record).
Context (ts : list Cpp.type).
Context (Hsig : signature f = Some ts).
Context (Hlen : length (fr_args f) = length ts).
Context (Hnd : NoDup (arg_name <$> fr_args f)).
Implicit Types (args : list object) (kwargs : gmap string object).

Lemma drop_names_NoDup n : NoDup (arg_name <$> drop n (fr_args f)).
Proof using All.
  rewrite fmap_drop.
  eapply sublist_NoDup; [exact Hnd|apply sublist_drop].
Qed.

(** The name of a parameter is not the name of an earlier one. *)
Lemma name_fresh n j r :
  drop n (fr_args f) !! j = Some r →
  arg_name r ∉ arg_name <$> take j (drop n (fr_args f)).
Proof using All.
  intros Hj Hin.
  apply list_elem_of_fmap in Hin as (r' & Heq & Hr').
  apply list_elem_of_lookup in Hr' as [j' Hj'].
  apply lookup_take_Some in Hj' as [Hj' Hlt].
  pose proof (drop_names_NoDup n) as Hnd'.
  assert ((arg_name <$> drop n (fr_args f)) !! j' = Some (arg_name r'))
    as H1 by by rewrite list_lookup_fmap, Hj'.
  assert ((arg_name <$> drop n (fr_args f)) !! j = Some (arg_name r))
    as H2 by by rewrite list_lookup_fmap, Hj.
  rewrite <- Heq in H1.
  pose proof (NoDup_lookup _ _ _ _ Hnd' H1 H2). lia.
Qed.

(** What step 2 puts at each place: the keyword if there is one, else the
    default. *)
Lemma fill_keywords_lookup n kwargs kw rest j r :
  fill_keywords (drop n (fr_args f)) kwargs = Some (kw, rest) →
  drop n (fr_args f) !! j = Some r →
  kw !! j = match kwargs !! arg_name r with
            | Some o => Some o
            | None => arg_value r
            end.
Proof using All.
  intros Hfill Hj.
  destruct (kwargs !! arg_name r) as [o|] eqn:Hk.
  - eapply fill_keywords_keyword; [done..|]. by apply name_fresh.
  - by eapply fill_keywords_default.
Qed.

(** Soundness: each value an accepted call hands to C++ is the caster
    image of the object the binding rule selects. *)
Lemma try_overload_bound args kwargs vs i ty :
  try_overload m convert f args kwargs = Some vs →
  ts !! i = Some ty →
  ∃ o, bound_object (fr_args f) args kwargs i = Some o
       ∧ vs !! i = load m convert ty o.
Proof using All.
  intros Htry Hty. unfold bound_object.
  destruct (args !! i) as [o|] eqn:Ho.
  { exists o. split; [done|]. by eapply try_overload_positional. }
  apply lookup_ge_None in Ho.
  destruct (lookup_lt_is_Some_2 (fr_args f) i) as [r Hr].
  { rewrite Hlen. by eapply lookup_lt_Some. }
  rewrite Hr. simpl.
  destruct (kwargs !! arg_name r) as [o|] eqn:Hk.
  { exists o. split; [done|]. by eapply try_overload_keyword. }
  destruct (arg_value r) as [d|] eqn:Hd.
  { exists d. split; [done|]. by eapply try_overload_default. }
  destruct (try_overload_required _ _ _ _ _ _ i r Htry Hr Hd) as [?|[? ?]];
    [lia|congruence].
Qed.

(** Completeness: a call within the arity, whose keywords name parameters
    not given by position and whose selected objects all pass their
    casters, is accepted. *)
Lemma try_overload_accepts args kwargs :
  (length args ≤ length ts)%nat →
  (∀ i r o, fr_args f !! i = Some r → args !! i = Some o →
            arg_none r = true ∨ is_none o = false) →
  (∀ k, is_Some (kwargs !! k) →
        ∃ i r, fr_args f !! i = Some r ∧ arg_name r = k
               ∧ (length args ≤ i)%nat) →
  (∀ i ty, ts !! i = Some ty →
           ∃ o, bound_object (fr_args f) args kwargs i = Some o
                ∧ is_Some (load m convert ty o)) →
  is_Some (try_overload m convert f args kwargs).
Proof using All.
  intros Hle Hnone Hkw Hall.
  assert (∀ i r, fr_args f !! i = Some r → i < length args →
                 kwargs !! arg_name r = None) as Hclash.
  { intros i r Hr Hi. apply eq_None_not_Some. intros Hk.
    destruct (Hkw _ Hk) as (i' & r' & Hr' & Heq & Hge).
    assert ((arg_name <$> fr_args f) !! i = Some (arg_name r)) as H1
        by by rewrite list_lookup_fmap, Hr.
    assert ((arg_name <$> fr_args f) !! i' = Some (arg_name r)) as H2
        by by rewrite list_lookup_fmap, Hr', <- Heq.
    pose proof (NoDup_lookup _ _ _ _ Hnd H1 H2). lia. }
  assert (copy_positional (fr_args f) args kwargs = Some args) as Hpos.
  { apply copy_positional_complete. intros i r o Hr Ho. split; [|eauto].
    apply (Hclash i r Hr). by eapply lookup_lt_Some. }
  destruct (fill_keywords_complete (drop (length args) (fr_args f)) kwargs)
    as [[kw rest] Hfill].
  { apply drop_names_NoDup. }
  { intros r [j Hj]%list_elem_of_lookup.
    pose proof Hj as Hj'. rewrite lookup_drop in Hj'.
    destruct (lookup_lt_is_Some_2 ts (length args + j)) as [ty Hty].
    { rewrite <- Hlen. by eapply lookup_lt_Some. }
    destruct (Hall _ _ Hty) as (o & Ho & _). unfold bound_object in Ho.
    rewrite (proj2 (lookup_ge_None _ _)) in Ho by lia.
    rewrite Hj' in Ho. simpl in Ho.
    destruct (kwargs !! arg_name r); [left|right]; eauto. }
  assert (rest = ∅) as ->.
  { apply map_empty. intros k.
    rewrite (fill_keywords_rest _ _ _ _ k Hfill).
    case_decide as Hin; [done|]. apply eq_None_not_Some. intros Hk.
    destruct (Hkw _ Hk) as (i' & r' & Hr' & Heq & Hge). apply Hin.
    apply list_elem_of_fmap. exists r'. split; [done|].
    apply list_elem_of_lookup. exists (i' - length args).
    rewrite lookup_drop, <- Hr'. f_equal. lia. }
  rewrite (try_overload_intro _ _ _ _ _ ts kw) by done.
  apply load_all_complete.
  pose proof (fill_keywords_length _ _ _ _ Hfill) as Hkwlen.
  rewrite length_drop in Hkwlen.
  apply Forall2_same_length_lookup_2.
  { rewrite length_app. lia. }
  intros i ty o' Hty Ho'.
  destruct (Hall _ _ Hty) as (o & Ho & Hload).
  replace o' with o; [done|].
  unfold bound_object in Ho.
  destruct (decide (i < length args)) as [Hlt|Hge].
  - rewrite lookup_app_l in Ho' by done. rewrite Ho' in Ho. congruence.
  - rewrite lookup_app_r in Ho' by lia.
    rewrite (proj2 (lookup_ge_None _ _)) in Ho by lia.
    destruct (fr_args f !! i) as [r|] eqn:Hr; [|done]. simpl in Ho.
    rewrite (fill_keywords_lookup _ _ _ _ _ r Hfill) in Ho'.
    + congruence.
    + rewrite lookup_drop, <- Hr. f_equal. lia.
Qed.

(** An accepted call has no more positional arguments than parameters. *)
Lemma try_overload_arity args kwargs vs :
  try_overload m convert f args kwargs = Some vs →
  (length args ≤ length ts)%nat ∧ length vs = length ts.
Proof using All.
  intros (ts' & kw & rest & Hsig' & Hle & _ & _ & _ & Hload)%try_overload_inv.
  rewrite Hsig in Hsig'. simplify_eq.
  by destruct (load_all_length _ _ _ _ _ Hload).
Qed.
End try_overload_more.

Section moving_arguments.
Context (m : module) (convert : bool) (f : function_record).
Context (ts : list Cpp.type).
Context (Hsig : signature f = Some ts).
Context (Hlen : length (fr_args f) = length ts).
Context (Hnd : NoDup (arg_name <$> fr_args f)).
Implicit Types (args : list object) (kwargs : gmap string object).

Lemma copy_positional_snoc recs args o kwargs r :
  recs !! length args = Some r →
  kwargs !! arg_name r = None → arg_none r = true →
  copy_positional recs (args ++ [o]) kwargs
  = (fun p => p ++ [o]) <$> copy_positional recs args kwargs.
Proof.
  revert recs.
  induction args as [|a args IH]; intros recs Hr Hno Hnone.
  - destruct recs as [|r0 recs]; simplify_eq/=.
    rewrite Hno, Hnone. by rewrite bool_decide_eq_false_2 by by intros [? ?].
  - destruct recs as [|r0 recs]; [done|]. simpl in Hr. simpl.
    destruct (_ || _); [done|]. rewrite (IH recs) by done.
    by destruct (copy_positional recs args kwargs).
Qed.

(** Parameters at different places have different names. *)
Lemma names_differ i j r r' :
  fr_args f !! i = Some r → fr_args f !! j = Some r' → i ≠ j →
  arg_name r ≠ arg_name r'.
Proof using Hnd.
  intros Hi Hj Hne Heq. apply Hne.
  eapply (NoDup_lookup _ _ _ (arg_name r) Hnd).
  - by rewrite list_lookup_fmap, Hi.
  - by rewrite list_lookup_fmap, Hj, Heq.
Qed.

(** The last positional argument may be passed under the keyword of its
    parameter instead. *)
Lemma try_overload_last_positional args kwargs o r :
  fr_args f !! length args = Some r →
  arg_none r = true → kwargs !! arg_name r = None →
  try_overload m convert f (args ++ [o]) kwargs
  = try_overload m convert f args (<[arg_name r := o]> kwargs).
Proof using Hsig Hlen Hnd.
  intros Hr Hnone Hno. unfold try_overload. rewrite Hsig. simpl.
  pose proof (lookup_lt_Some _ _ _ Hr) as Hlt. rewrite Hlen in Hlt.
  rewrite length_app. simpl.
  rewrite !(bool_decide_eq_false_2 (length ts < _)) by lia.
  rewrite !(bool_decide_eq_false_2 (length (fr_args f) < _)) by lia.
  rewrite !andb_false_r.
  rewrite (copy_positional_snoc _ _ _ _ r) by done.
  rewrite (copy_positional_ext _ args (<[arg_name r:=o]> kwargs) kwargs).
  2:{ intros i r' Hr' Hi. rewrite lookup_insert_ne; [done|].
      eapply (names_differ (length args) i); [done..|lia]. }
  replace (length args + 1) with (S (length args)) by lia.
  rewrite (drop_S _ _ _ Hr). simpl.
  rewrite lookup_insert_eq, delete_insert_eq, (delete_id _ _ Hno).
  destruct (copy_positional _ args kwargs) as [pos|] eqn:Hpos; [|done].
  simpl. apply copy_positional_id in Hpos as ->.
  destruct (fill_keywords _ kwargs) as [[kw rest]|]; [|done]. simpl.
  by rewrite <- app_assoc.
Qed.

(** An omitted parameter may be passed its own default by keyword. *)
Lemma try_overload_explicit_default args kwargs i r d :
  fr_args f !! i = Some r → arg_value r = Some d →
  (length args ≤ i)%nat → kwargs !! arg_name r = None →
  try_overload m convert f args (<[arg_name r := d]> kwargs)
  = try_overload m convert f args kwargs.
Proof using Hsig Hlen Hnd.
  intros Hr Hd Hge Hno. unfold try_overload.
  rewrite (copy_positional_ext _ args (<[arg_name r:=d]> kwargs) kwargs).
  2:{ intros j r' Hr' Hj. rewrite lookup_insert_ne; [done|].
      eapply (names_differ i j); [done..|lia]. }
  rewrite (fill_keywords_insert_default _ _ (i - length args) r d); [done| | |done..].
  - rewrite fmap_drop. eapply sublist_NoDup; [exact Hnd|apply sublist_drop].
  - rewrite lookup_drop, <- Hr. f_equal. lia.
Qed.
End moving_arguments.

End CallFacts.

(* ===================================================================== *)
(** ** Calling the constructors of the module *)
(* ===================================================================== *)

Module Calls.
Import Py Binding Sampler Dispatch Netket.
Import DispatchFacts SamplerFacts CallFacts.
Import Cpp (class(..), type(..)).

(** The Python name a C++ class is registered under. *)
Definition python_name (t : Cpp.class) : string := cl_name (the_class t).

(** The entry of a class dictionary under a name. *)
Definition own_attr (c : Py.class_) (name : string)
  : option (list function_record) :=
  snd <$> List.find (fun e => String.eqb (fst e) name) (cl_dict c).

(** The five Python names of [ADDSAMPLERMETHODS]. *)
Definition contract_names : list string :=
  ["reset"; "sweep"; "get_visible"; "set_visible"; "acceptance"].

Lemma variant_name t :
  t ∈ variants → find_name sampler (python_name t) = Some (the_class t).
Proof.
  revert t. apply Forall_forall.
  repeat apply Forall_cons_2; try apply Forall_nil_2; vm_compute; reflexivity.
Qed.

Lemma variant_params_none t :
  t ∈ variants → Forall (fun r => arg_none r = true) (ctor_params t).
Proof.
  revert t. apply Forall_forall.
  repeat apply Forall_cons_2; try apply Forall_nil_2; reflexivity.
Qed.

Lemma construct_variant t args kwargs :
  t ∈ variants →
  construct (python_name t) args kwargs
  = call_class sampler (the_class t) args kwargs.
Proof. intros Ht. apply construct_found. by apply variant_name. Qed.

Lemma issubclass_refl m t : issubclass m t t = true.
Proof.
  unfold issubclass. destruct (length m); simpl;
    by rewrite bool_decide_eq_true_2.
Qed.

Lemma bound_object_self params args kwargs self o i :
  bound_object (self :: params) (o :: args) kwargs (S i)
  = bound_object params args kwargs i.
Proof. done. Qed.

(** An accepted call of the class [t], opened. *)
Ltac call_inv Ht Hcall :=
  let f := fresh "f" in
  let vs := fresh "vs" in
  destruct (variant_init _ Ht)
    as (f & Hl & Hty & Hscope & Hargs & Hsig & Hlen & Hnd);
  rewrite (call_class_single _ _ f _ _ Hl), Hty in Hcall;
  destruct (try_overload _ _ f _ _) as [vs|] eqn:Htry; [|done];
  injection Hcall as <-.

Section variant_calls.
Context (t : Cpp.class) (Ht : t ∈ variants).
Implicit Types (args : list object) (kwargs : gmap string object).

Lemma record_length f :
  fr_args f = self_arg :: ctor_params t →
  signature f = Some (Class t :: ctor_types t) →
  length (ctor_types t) = length (ctor_params t) →
  length (fr_args f) = length (Class t :: ctor_types t).
Proof. intros -> _ Hlen. simpl. by rewrite Hlen. Qed.

(** What an accepted call hands to the C++ constructor. *)
Lemma call_bound args kwargs con :
  call_class sampler (the_class t) args kwargs = inr con →
  con_class con = t ∧
  (length args ≤ length (ctor_params t))%nat ∧
  length (con_args con) = length (ctor_params t) ∧
  ∀ i ty, ctor_types t !! i = Some ty →
    ∃ o, bound_object (ctor_params t) args kwargs i = Some o
         ∧ con_args con !! i = load sampler true ty o.
Proof using Ht.
  intros Hcall. call_inv Ht Hcall.
  pose proof (record_length _ Hargs Hsig Hlen) as Hlen'.
  destruct (try_overload_arity _ _ _ _ Hsig Hlen' Hnd _ _ _ Htry)
    as [Hle Hvs].
  simpl in Hle, Hvs. repeat split; [done|lia| |].
  - simpl. destruct vs; simpl in *; lia.
  - intros i ty Hi.
    destruct (try_overload_bound _ _ _ _ Hsig Hlen' Hnd _ _ _ (S i) ty Htry Hi)
      as (o & Ho & Hv).
    rewrite Hargs, bound_object_self in Ho. exists o. split; [done|].
    simpl. by rewrite lookup_tail.
Qed.

(** When the class accepts a call. *)
Lemma call_accepts args kwargs :
  (length args ≤ length (ctor_params t))%nat →
  (∀ k, is_Some (kwargs !! k) →
        ∃ i r, ctor_params t !! i = Some r ∧ arg_name r = k
               ∧ (length args ≤ i)%nat) →
  (∀ i ty, ctor_types t !! i = Some ty →
     ∃ o, bound_object (ctor_params t) args kwargs i = Some o
          ∧ is_Some (load sampler true ty o)) →
  ∃ con, call_class sampler (the_class t) args kwargs = inr con.
Proof using Ht.
  intros Hle Hkw Hall.
  destruct (variant_init _ Ht)
    as (f & Hl & Hty & Hscope & Hargs & Hsig & Hlen & Hnd).
  pose proof (record_length _ Hargs Hsig Hlen) as Hlen'.
  rewrite (call_class_single _ _ f _ _ Hl), Hty.
  destruct (try_overload_accepts sampler true f _ Hsig Hlen' Hnd
              (Instance t 0 :: args) kwargs) as [vs ->]; [| | | |by eauto].
  - simpl. lia.
  - rewrite Hargs. intros [|i] r o Hr Ho; simpl in Hr, Ho.
    + injection Ho as <-. by right.
    + left. pose proof (variant_params_none t Ht) as Hnone.
      by eapply Forall_lookup_1 in Hnone.
  - intros k Hk. destruct (Hkw k Hk) as (i & r & Hr & Hname & Hge).
    exists (S i), r. rewrite Hargs. repeat split; [done..|simpl; lia].
  - rewrite Hargs. intros [|i] ty Hi; simpl in Hi.
    + injection Hi as <-. exists (Instance t 0). split; [done|].
      simpl. rewrite issubclass_refl. eauto.
    + rewrite bound_object_self. by apply Hall.
Qed.

(** The keywords of an accepted call are declared names, used for
    parameters that are not given by position. *)
Lemma call_keywords args kwargs con k :
  call_class sampler (the_class t) args kwargs = inr con →
  is_Some (kwargs !! k) →
  ∃ i r, ctor_params t !! i = Some r ∧ arg_name r = k
         ∧ (length args ≤ i)%nat.
Proof using Ht. intros Hcall. by eapply ctor_call_keywords. Qed.
End variant_calls.

Ltac in_variants := apply (bool_decide_unpack _); vm_compute; reflexivity.

(** X1.  For each of the ten variants, a constructor call is accepted
    exactly when it has no more positional arguments than the constructor
    has parameters, every keyword is the name of a parameter that is not
    already given by position, and for every parameter the object selected
    for it (positional argument, else keyword, else default) passes the
    caster of the parameter's C++ type. *)
Theorem constructor_accepts_iff t args kwargs :
  t ∈ variants →
  (∃ con, construct (python_name t) args kwargs = inr con) ↔
  (length args ≤ length (ctor_params t))%nat ∧
  (∀ k, is_Some (kwargs !! k) →
        ∃ i r, ctor_params t !! i = Some r ∧ arg_name r = k
               ∧ (length args ≤ i)%nat) ∧
  (∀ i ty, ctor_types t !! i = Some ty →
     ∃ o, bound_object (ctor_params t) args kwargs i = Some o
          ∧ is_Some (load sampler true ty o)).
Proof.
  intros Ht. rewrite construct_variant by done. split.
  - intros [con Hcall].
    destruct (call_bound t Ht _ _ _ Hcall) as (_ & Hle & Hlen & Hall).
    split; [done|]. split; [intros k; by eapply call_keywords|].
    intros i ty Hty. destruct (Hall i ty Hty) as (o & Ho & Hv).
    exists o. split; [done|]. rewrite <- Hv.
    apply lookup_lt_is_Some_2. rewrite Hlen.
    destruct (variant_init t Ht) as (_ & _ & _ & _ & _ & _ & <- & _).
    by eapply lookup_lt_Some.
  - intros (Hle & Hkw & Hall). by apply call_accepts.
Qed.

Lemma constructor_accepts_iff_witness :
  MetropolisExchange ∈ variants ∧
  ∃ con, construct (python_name MetropolisExchange)
           [Instance AbstractGraph 0]
           (keywords [("machine", Instance AbMachineType 1)]) = inr con.
Proof.
  assert (MetropolisExchange ∈ variants) as Hin by in_variants.
  split; [exact Hin|].
  apply (proj2 (constructor_accepts_iff MetropolisExchange
                  [Instance AbstractGraph 0]
                  (keywords [("machine", Instance AbMachineType 1)]) Hin)).
  split; [simpl; lia|]. split.
  - intros k [v Hk]. exists 1%nat, (arg "machine").
    split; [reflexivity|]. split; [|simpl; lia].
    destruct (decide (k = "machine")) as [->|Hne]; [reflexivity|].
    unfold keywords in Hk. simpl in Hk.
    rewrite lookup_insert_ne, lookup_empty in Hk by done. discriminate Hk.
  - intros [|[|[|i]]] ty Hty; vm_compute in Hty; [..|discriminate Hty];
      injection Hty as <-; eexists; (split; [vm_compute; reflexivity|]);
      vm_compute; eauto.
Defined.

(** X2.  When a constructor call of a variant is accepted, the C++
    constructor invoked is that of the class called, it receives one value
    per declared parameter, and value [i] is the caster image of the
    object selected for parameter [i]: the positional argument if there is
    one, else the keyword of that name, else the declared default. *)
Theorem constructor_arguments_bound t args kwargs con :
  t ∈ variants →
  construct (python_name t) args kwargs = inr con →
  con_class con = t ∧
  length (con_args con) = length (ctor_params t) ∧
  ∀ i ty, ctor_types t !! i = Some ty →
    ∃ o, bound_object (ctor_params t) args kwargs i = Some o
         ∧ con_args con !! i = load sampler true ty o.
Proof.
  intros Ht Hcall. rewrite construct_variant in Hcall by done.
  destruct (call_bound t Ht _ _ _ Hcall) as (Hc & _ & Hlen & Hall). done.
Qed.

Lemma constructor_arguments_bound_witness :
  MetropolisHamiltonianPt ∈ variants ∧
  construct (python_name MetropolisHamiltonianPt)
    [Instance AbMachineType 0]
    (keywords [("n_replicas", Int_ 4);
               ("hamiltonian", Instance AbstractOperator 1)])
  = inr (mk_construction MetropolisHamiltonianPt
           [Cpp.VObj AbMachineType 0; Cpp.VObj AbstractOperator 1;
            Cpp.VInt 4]) ∧
  con_class (mk_construction MetropolisHamiltonianPt
               [Cpp.VObj AbMachineType 0; Cpp.VObj AbstractOperator 1;
                Cpp.VInt 4]) = MetropolisHamiltonianPt.
Proof.
  assert (MetropolisHamiltonianPt ∈ variants) as Hin by in_variants.
  assert (construct (python_name MetropolisHamiltonianPt)
            [Instance AbMachineType 0]
            (keywords [("n_replicas", Int_ 4);
                       ("hamiltonian", Instance AbstractOperator 1)])
          = inr (mk_construction MetropolisHamiltonianPt
                   [Cpp.VObj AbMachineType 0; Cpp.VObj AbstractOperator 1;
                    Cpp.VInt 4])) as Hcall by (vm_compute; reflexivity).
  split; [exact Hin|]. split; [exact Hcall|].
  exact (proj1 (constructor_arguments_bound _ _ _ _ Hin Hcall)).
Defined.

(** X3.  Position or keyword makes no difference: for every variant, a
    call whose last positional argument is moved to the keyword of the
    parameter it stood for has the same outcome, accepted with the same
    C++ arguments or rejected, provided the call did not already use that
    keyword. *)
Theorem last_positional_as_keyword t args kwargs o r :
  t ∈ variants →
  ctor_params t !! length args = Some r →
  kwargs !! arg_name r = None →
  construct (python_name t) (args ++ [o]) kwargs
  = construct (python_name t) args (<[arg_name r := o]> kwargs).
Proof.
  intros Ht Hr Hno. rewrite !construct_variant by done.
  destruct (variant_init _ Ht)
    as (f & Hl & Hty & Hscope & Hargs & Hsig & Hlen & Hnd).
  pose proof (record_length t _ Hargs Hsig Hlen) as Hlen'.
  rewrite !(call_class_single _ _ f _ _ Hl), Hty.
  change (Instance t 0 :: args ++ [o]) with ((Instance t 0 :: args) ++ [o]).
  rewrite (try_overload_last_positional sampler true f _ Hsig Hlen' Hnd
             (Instance t 0 :: args) kwargs o r); [done| | |done].
  - by rewrite Hargs.
  - pose proof (variant_params_none t Ht) as Hnone.
    by eapply Forall_lookup_1 in Hnone.
Qed.

Lemma last_positional_as_keyword_witness :
  MetropolisHop ∈ variants ∧
  construct (python_name MetropolisHop)
    ([Instance AbstractGraph 0; Instance AbMachineType 1] ++ [Int_ 2]) ∅
  = construct (python_name MetropolisHop)
      [Instance AbstractGraph 0; Instance AbMachineType 1]
      (<["d_max" := Int_ 2]> ∅).
Proof.
  assert (MetropolisHop ∈ variants) as Hin by in_variants.
  split; [exact Hin|].
  exact (last_positional_as_keyword MetropolisHop
           [Instance AbstractGraph 0; Instance AbMachineType 1] ∅
           (Int_ 2) (arg "d_max") Hin eq_refl eq_refl).
Defined.

(** X4.  A default is indistinguishable from the same value passed
    explicitly: for every variant and every parameter with a default that
    the call gives neither by position nor by keyword, adding the default
    under the parameter's keyword leaves the outcome of the call
    unchanged. *)
Theorem default_as_keyword t args kwargs i r d :
  t ∈ variants →
  ctor_params t !! i = Some r → arg_value r = Some d →
  ¬ given i (arg_name r) args kwargs →
  construct (python_name t) args (<[arg_name r := d]> kwargs)
  = construct (python_name t) args kwargs.
Proof.
  intros Ht Hr Hd Hnot. rewrite !construct_variant by done.
  destruct (variant_init _ Ht)
    as (f & Hl & Hty & Hscope & Hargs & Hsig & Hlen & Hnd).
  pose proof (record_length t _ Hargs Hsig Hlen) as Hlen'.
  rewrite !(call_class_single _ _ f _ _ Hl), Hty.
  unfold given in Hnot.
  rewrite (try_overload_explicit_default sampler true f _ Hsig Hlen' Hnd
             (Instance t 0 :: args) kwargs (S i) r d); [done| |done| |].
  - by rewrite Hargs.
  - simpl. lia.
  - apply eq_None_not_Some. tauto.
Qed.

Lemma default_as_keyword_witness :
  CustomSamplerPt ∈ variants ∧
  construct (python_name CustomSamplerPt)
    [Instance AbMachineType 0; List_ [Matrix_ 0]; List_ [List_ [Int_ 0]]]
    (<["move_weights" := List_ []]> (keywords [("nreplicas", Int_ 2)]))
  = construct (python_name CustomSamplerPt)
      [Instance AbMachineType 0; List_ [Matrix_ 0]; List_ [List_ [Int_ 0]]]
      (keywords [("nreplicas", Int_ 2)]).
Proof.
  assert (CustomSamplerPt ∈ variants) as Hin by in_variants.
  split; [exact Hin|].
  apply (default_as_keyword CustomSamplerPt
           [Instance AbMachineType 0; List_ [Matrix_ 0];
            List_ [List_ [Int_ 0]]]
           (keywords [("nreplicas", Int_ 2)]) 3
           ("move_weights" =: List_ []) (List_ []) Hin eq_refl eq_refl).
  intros [Hpos|[x Hkw]]; [simpl in Hpos; lia|].
  vm_compute in Hkw. discriminate Hkw.
Defined.

(** The parameters a caller has to give: those without default. *)
Definition required (params : list Py.arg) : list Py.arg :=
  filter (fun r => arg_value r = None) params.

Lemma names_in_dom_length (l : list string) (kwargs : gmap string object) :
  NoDup l → (∀ k, k ∈ l → is_Some (kwargs !! k)) →
  (length l ≤ size kwargs)%nat.
Proof.
  intros Hnd Hin. rewrite <- (size_list_to_set (C := gset string) l Hnd).
  rewrite <- (size_dom (D := gset string) kwargs). apply subseteq_size.
  intros k Hk. apply elem_of_dom, Hin. by apply elem_of_list_to_set in Hk.
Qed.

Lemma dom_in_names_length (l : list string) (kwargs : gmap string object) :
  NoDup l → (∀ k, is_Some (kwargs !! k) → k ∈ l) →
  (size kwargs ≤ length l)%nat.
Proof.
  intros Hnd Hin. rewrite <- (size_list_to_set (C := gset string) l Hnd).
  rewrite <- (size_dom (D := gset string) kwargs). apply subseteq_size.
  intros k Hk. apply elem_of_list_to_set, Hin. by apply elem_of_dom.
Qed.

(** X5.  An accepted constructor call of a variant passes, positional and
    keyword arguments together, at least as many arguments as the
    constructor has parameters without default and at most as many as it
    has parameters. *)
Theorem constructor_arity t args kwargs con :
  t ∈ variants →
  construct (python_name t) args kwargs = inr con →
  (length (required (ctor_params t)) ≤ length args + size kwargs)%nat ∧
  (length args + size kwargs ≤ length (ctor_params t))%nat.
Proof.
  intros Ht Hcall. rewrite construct_variant in Hcall by done.
  destruct (call_bound t Ht _ _ _ Hcall) as (_ & Hle & _ & _).
  assert (NoDup (arg_name <$> ctor_params t)) as Hnd.
  { destruct (variant_init t Ht) as (f & _ & _ & _ & Hargs & _ & _ & Hnd).
    rewrite Hargs, fmap_cons in Hnd. by apply NoDup_cons in Hnd as [_ ?]. }
  assert (NoDup (arg_name <$> drop (length args) (ctor_params t))) as Hnd'.
  { rewrite fmap_drop. eapply sublist_NoDup; [exact Hnd|apply sublist_drop]. }
  split.
  - unfold required.
    rewrite <- (take_drop (length args) (ctor_params t)) at 1.
    rewrite filter_app, length_app.
    apply Nat.add_le_mono.
    + etrans; [apply length_filter|]. rewrite length_take. lia.
    + rewrite <- (length_fmap arg_name).
      apply names_in_dom_length.
      * eapply sublist_NoDup; [exact Hnd'|].
        apply fmap_sublist, sublist_filter.
      * intros k (r & -> & Hr)%list_elem_of_fmap.
        apply list_elem_of_filter in Hr as [Hreq Hr].
        apply list_elem_of_lookup in Hr as [j Hj].
        rewrite lookup_drop in Hj.
        destruct (ctor_call_required t Ht _ _ _ Hcall _ r Hj Hreq)
          as [?|?]; [lia|done].
  - assert (size kwargs ≤ length (drop (length args) (ctor_params t)))%nat.
    { rewrite <- (length_fmap arg_name). apply dom_in_names_length; [done|].
      intros k Hk.
      destruct (call_keywords t Ht _ _ _ k Hcall Hk)
        as (i & r & Hr & <- & Hge).
      apply list_elem_of_fmap. exists r. split; [done|].
      apply list_elem_of_lookup. exists (i - length args).
      rewrite lookup_drop, <- Hr. f_equal. lia. }
    rewrite length_drop in *. lia.
Qed.

Lemma constructor_arity_witness :
  MetropolisExchangePt ∈ variants ∧
  construct (python_name MetropolisExchangePt)
    [Instance AbstractGraph 0; Instance AbMachineType 1]
    (keywords [("n_replicas", Int_ 8)])
  = inr (mk_construction MetropolisExchangePt
           [Cpp.VObj AbstractGraph 0; Cpp.VObj AbMachineType 1;
            Cpp.VInt 1; Cpp.VInt 8]) ∧
  (length (required (ctor_params MetropolisExchangePt))
   ≤ 2 + size (keywords [("n_replicas", Int_ 8)]))%nat.
Proof.
  assert (MetropolisExchangePt ∈ variants) as Hin by in_variants.
  assert (construct (python_name MetropolisExchangePt)
            [Instance AbstractGraph 0; Instance AbMachineType 1]
            (keywords [("n_replicas", Int_ 8)])
          = inr (mk_construction MetropolisExchangePt
                   [Cpp.VObj AbstractGraph 0; Cpp.VObj AbMachineType 1;
                    Cpp.VInt 1; Cpp.VInt 8])) as Hcall
    by (vm_compute; reflexivity).
  split; [exact Hin|]. split; [exact Hcall|].
  exact (proj1 (constructor_arity _ _ _ _ Hin Hcall)).
Defined.

Lemma load_int_Some m conv o v :
  load m conv Int o = Some v →
  ∃ z, o = Int_ z ∧ in_int_range z = true ∧ v = Cpp.VInt z.
Proof.
  destruct o; simpl; try done.
  destruct (in_int_range z) eqn:Hz; [|done]. intros [= <-]. eauto.
Qed.

(** X6.  Integer parameters ([d_max], [n_replicas], [nreplicas]) reach C++
    unchanged: in an accepted constructor call of a variant, the object
    selected for a parameter of C++ type [int] is a Python integer within
    the 32-bit range, and the constructor receives exactly that integer.
    A float, [None], a string, a list or an integer out of range is never
    accepted there. *)
Theorem integer_parameters_pass_unchanged t args kwargs con i :
  t ∈ variants →
  construct (python_name t) args kwargs = inr con →
  ctor_types t !! i = Some Int →
  ∃ z, bound_object (ctor_params t) args kwargs i = Some (Int_ z) ∧
       (Cpp.INT_MIN ≤ z ≤ Cpp.INT_MAX)%Z ∧
       con_args con !! i = Some (Cpp.VInt z).
Proof.
  intros Ht Hcall Hty. rewrite construct_variant in Hcall by done.
  destruct (call_bound t Ht _ _ _ Hcall) as (_ & _ & Hlen & Hall).
  destruct (Hall i Int Hty) as (o & Ho & Hv).
  destruct (lookup_lt_is_Some_2 (con_args con) i) as [v Hv'].
  { rewrite Hlen.
    destruct (variant_init t Ht) as (_ & _ & _ & _ & _ & _ & <- & _).
    by eapply lookup_lt_Some. }
  rewrite Hv' in Hv. symmetry in Hv.
  apply load_int_Some in Hv as (z & -> & Hz & ->).
  exists z. split; [done|]. split; [|done].
  unfold in_int_range in Hz. apply andb_true_iff in Hz as [H1 H2].
  apply Z.leb_le in H1, H2. done.
Qed.

Lemma integer_parameters_pass_unchanged_witness :
  MetropolisLocalPt ∈ variants ∧
  construct (python_name MetropolisLocalPt) [Instance AbMachineType 0]
    (keywords [("n_replicas", Int_ (-3))])
  = inr (mk_construction MetropolisLocalPt
           [Cpp.VObj AbMachineType 0; Cpp.VInt (-3)]) ∧
  ctor_types MetropolisLocalPt !! 1%nat = Some Int ∧
  ∃ z, bound_object (ctor_params MetropolisLocalPt)
         [Instance AbMachineType 0]
         (keywords [("n_replicas", Int_ (-3))]) 1 = Some (Int_ z) ∧
       (Cpp.INT_MIN ≤ z ≤ Cpp.INT_MAX)%Z ∧
       [Cpp.VObj AbMachineType 0; Cpp.VInt (-3)] !! 1%nat
       = Some (Cpp.VInt z).
Proof.
  assert (MetropolisLocalPt ∈ variants) as Hin by in_variants.
  assert (construct (python_name MetropolisLocalPt)
            [Instance AbMachineType 0]
            (keywords [("n_replicas", Int_ (-3))])
          = inr (mk_construction MetropolisLocalPt
                   [Cpp.VObj AbMachineType 0; Cpp.VInt (-3)])) as Hcall
    by (vm_compute; reflexivity).
  assert (ctor_types MetropolisLocalPt !! 1%nat = Some Int) as Hty
    by reflexivity.
  split; [exact Hin|]. split; [exact Hcall|]. split; [exact Hty|].
  exact (integer_parameters_pass_unchanged _ _ _ _ _ Hin Hcall Hty).
Defined.

Lemma load_None m conv ty : load m conv ty None_ = None.
Proof. induction ty; simpl; done. Qed.

(** X7.  [None] is never accepted for a constructor parameter: every
    parameter of the ten constructors is a reference, an [int] or a vector,
    so in an accepted call no parameter has [None] selected for it. *)
Theorem None_is_never_accepted t args kwargs con i :
  t ∈ variants →
  construct (python_name t) args kwargs = inr con →
  i < length (ctor_params t) →
  bound_object (ctor_params t) args kwargs i ≠ Some None_.
Proof.
  intros Ht Hcall Hi Hnone. rewrite construct_variant in Hcall by done.
  destruct (call_bound t Ht _ _ _ Hcall) as (_ & _ & Hlen & Hall).
  destruct (lookup_lt_is_Some_2 (ctor_types t) i) as [ty Hty].
  { by destruct (variant_init t Ht) as (_ & _ & _ & _ & _ & _ & -> & _). }
  destruct (Hall i ty Hty) as (o & Ho & Hv).
  rewrite Hnone in Ho. injection Ho as <-. rewrite load_None in Hv.
  apply lookup_ge_None in Hv. lia.
Qed.

Lemma None_is_never_accepted_witness :
  ExactSampler ∈ variants ∧
  construct (python_name ExactSampler) [Instance AbMachineType 0] ∅
  = inr (mk_construction ExactSampler [Cpp.VObj AbMachineType 0]) ∧
  bound_object (ctor_params ExactSampler) [Instance AbMachineType 0] ∅ 0
  ≠ Some None_.
Proof.
  assert (ExactSampler ∈ variants) as Hin by in_variants.
  assert (construct (python_name ExactSampler) [Instance AbMachineType 0] ∅
          = inr (mk_construction ExactSampler [Cpp.VObj AbMachineType 0]))
    as Hcall by (vm_compute; reflexivity).
  split; [exact Hin|]. split; [exact Hcall|].
  apply (None_is_never_accepted _ _ _ _ 0 Hin Hcall). simpl. lia.
Defined.


Section class_dictionary.
Implicit Types (d : list (string * list function_record)).

Definition dict_find d (n : string) : option (list function_record) :=
  snd <$> List.find (fun e => String.eqb (fst e) n) d.

Lemma dict_find_add_overload d name f n :
  dict_find (add_overload name f d) n
  = if String.eqb name n
    then Some (default [] (dict_find d name) ++ [f])
    else dict_find d n.
Proof.
  unfold dict_find. induction d as [|[n0 chain] d IH]; simpl.
  - by destruct (String.eqb name n).
  - destruct (String.eqb n0 name) eqn:H0; simpl.
    + apply String.eqb_eq in H0 as ->.
      destruct (String.eqb name n) eqn:Hn; simpl; done.
    + destruct (String.eqb n0 n) eqn:H1; simpl.
      * apply String.eqb_eq in H1 as ->.
        by rewrite (proj2 (String.eqb_neq name n))
          by (apply String.eqb_neq in H0; congruence).
      * done.
Qed.
End class_dictionary.

Lemma own_attr_def name f extra c n :
  own_attr (def name f extra c) n
  = if String.eqb name n
    then Some (default [] (own_attr c name)
               ++ [mk_function_record name f (cl_type c)
                                      (process_attributes extra)])
    else own_attr c n.
Proof. apply dict_find_add_overload. Qed.

(** X9.  [ADDSAMPLERMETHODS(name)] applied to any class, whatever was
    defined on it before, leaves its C++ type, its parent and its Python
    name alone, leaves every binding under another name untouched (so a
    constructor defined before the macro survives it), and appends to each
    of the five names one overload bound to the member of [name]. *)
Theorem ADDSAMPLERMETHODS_preserves name c :
  let c' := ADDSAMPLERMETHODS name c in
  cl_type c' = cl_type c ∧ cl_base c' = cl_base c ∧
  cl_name c' = cl_name c ∧
  (∀ n, n ∉ contract_names → own_attr c' n = own_attr c n) ∧
  Forall
    (fun '(n, (t, mem)) =>
       own_attr c' n
       = Some (default [] (own_attr c n)
               ++ [mk_function_record n (Method t mem) (cl_type c) []]))
    (contract name).
Proof.
  simpl. repeat split.
  - intros n Hn. unfold ADDSAMPLERMETHODS.
    rewrite !own_attr_def.
    repeat match goal with
           | |- context [String.eqb ?a n] =>
               rewrite (proj2 (String.eqb_neq a n))
                 by (intros <-; apply Hn; vm_compute;
                     repeat first [ apply list_elem_of_here
                                  | apply list_elem_of_further ])
           end.
    done.
  - unfold ADDSAMPLERMETHODS, contract.
    repeat apply Forall_cons_2; try apply Forall_nil_2;
      rewrite !own_attr_def; reflexivity.
Qed.

Lemma ADDSAMPLERMETHODS_preserves_witness :
  ("__init__" ∉ contract_names) ∧
  own_attr (ADDSAMPLERMETHODS MetropolisLocal
              (def_init [Ref (Class AbMachineType)] [arg "machine"]
                 (class_ MetropolisLocal (Some AbSamplerType)
                         "MetropolisLocal")))
           "__init__"
  = own_attr (def_init [Ref (Class AbMachineType)] [arg "machine"]
                (class_ MetropolisLocal (Some AbSamplerType)
                        "MetropolisLocal"))
             "__init__".
Proof.
  assert ("__init__" ∉ contract_names) as Hn.
  { intros Hin. vm_compute in Hin.
    repeat (apply elem_of_cons in Hin as [Hin|Hin]; [discriminate Hin|]).
    by apply elem_of_nil in Hin. }
  split; [exact Hn|].
  exact (proj1 (proj2 (proj2 (proj2
           (ADDSAMPLERMETHODS_preserves MetropolisLocal _)))) _ Hn).
Defined.

(** X10.  The import succeeds and registers eleven classes, the abstract
    one first; no two of them share a Python name or a C++ type, so each
    Python name and each C++ type resolves to the class registered under
    it. *)
Theorem registered_names_are_keys :
  AddSamplerModule = Some sampler ∧
  cl_type <$> sampler = AbSamplerType :: variants ∧
  NoDup (cl_name <$> sampler) ∧
  NoDup (cl_type <$> sampler) ∧
  Forall (fun c => find_name sampler (cl_name c) = Some c
                   ∧ find_class sampler (cl_type c) = Some c) sampler.
Proof.
  split; [vm_compute; reflexivity|]. split; [vm_compute; reflexivity|].
  split; [apply (bool_decide_unpack _); vm_compute; reflexivity|].
  split; [apply (bool_decide_unpack _); vm_compute; reflexivity|].
  assert (sampler = the_class AbSamplerType :: (the_class <$> variants))
    as -> by (vm_compute; reflexivity).
  repeat apply Forall_cons_2; try apply Forall_nil_2;
    split; vm_compute; reflexivity.
Qed.




(** X12.  The four constructors without options: MetropolisLocal and
    ExactSampler declare exactly [machine]; MetropolisLocalPt declares
    [machine] and [n_replicas]; MetropolisHamiltonianPt declares [machine],
    [hamiltonian] and [n_replicas]; none of these parameters has a default.
    So an accepted call of one of the four gives every declared parameter,
    by position or by keyword; in particular the replica count of the Local
    and Hamiltonian parallel-tempering samplers cannot be left out. *)
Theorem constructors_without_defaults :
  requires_exactly MetropolisLocal ["machine"] ∧
  requires_exactly ExactSampler ["machine"] ∧
  requires_exactly MetropolisLocalPt ["machine"; "n_replicas"] ∧
  requires_exactly MetropolisHamiltonianPt
    ["machine"; "hamiltonian"; "n_replicas"] ∧
  ∀ t args kwargs con i r,
    t ∈ [MetropolisLocal; ExactSampler; MetropolisLocalPt;
         MetropolisHamiltonianPt] →
    construct (python_name t) args kwargs = inr con →
    ctor_params t !! i = Some r →
    given i (arg_name r) args kwargs.
Proof.
  assert (∀ t, t ∈ [MetropolisLocal; ExactSampler; MetropolisLocalPt;
                    MetropolisHamiltonianPt] →
               t ∈ variants
               ∧ Forall (fun r => arg_value r = None) (ctor_params t))
    as Hfour.
  { apply Forall_forall.
    repeat apply Forall_cons_2; try apply Forall_nil_2;
      (split; [in_variants|]);
      repeat apply Forall_cons_2; try apply Forall_nil_2; reflexivity. }
  assert (∀ t names, arg_name <$> ctor_params t = names →
                     t ∈ [MetropolisLocal; ExactSampler; MetropolisLocalPt;
                          MetropolisHamiltonianPt] →
                     requires_exactly t names) as Hexact.
  { intros t names Hnames Ht. split; [done|]. by apply Hfour. }
  split; [apply Hexact; [reflexivity|in_variants]|].
  split; [apply Hexact; [reflexivity|in_variants]|].
  split; [apply Hexact; [reflexivity|in_variants]|].
  split; [apply Hexact; [reflexivity|in_variants]|].
  intros t args kwargs con i r Ht Hcall Hr.
  destruct (Hfour t Ht) as [Hin Hreq].
  rewrite construct_variant in Hcall by done.
  eapply ctor_call_required; [done..|].
  by eapply Forall_lookup_1 in Hreq.
Qed.

Lemma constructors_without_defaults_witness :
  MetropolisLocalPt ∈ [MetropolisLocal; ExactSampler; MetropolisLocalPt;
                       MetropolisHamiltonianPt] ∧
  construct (python_name MetropolisLocalPt) []
    (keywords [("n_replicas", Int_ 4); ("machine", Instance AbMachineType 0)])
  = inr (mk_construction MetropolisLocalPt
           [Cpp.VObj AbMachineType 0; Cpp.VInt 4]) ∧
  given 1 "n_replicas" []
    (keywords [("n_replicas", Int_ 4); ("machine", Instance AbMachineType 0)]).
Proof.
  assert (MetropolisLocalPt ∈ [MetropolisLocal; ExactSampler;
                               MetropolisLocalPt; MetropolisHamiltonianPt])
    as Hin by in_variants.
  assert (construct (python_name MetropolisLocalPt) []
            (keywords [("n_replicas", Int_ 4);
                       ("machine", Instance AbMachineType 0)])
          = inr (mk_construction MetropolisLocalPt
                   [Cpp.VObj AbMachineType 0; Cpp.VInt 4])) as Hcall
    by (vm_compute; reflexivity).
  split; [exact Hin|]. split; [exact Hcall|].
  exact (proj2 (proj2 (proj2 (proj2 constructors_without_defaults)))
           _ _ _ _ 1%nat (arg "n_replicas") Hin Hcall eq_refl).
Defined.

(** X13.  The class hierarchy is flat: a variant is a subclass of itself
    and of the abstract class and of nothing else, so an instance of one
    variant is never accepted where another variant, a machine, a graph or
    an operator is expected; the abstract class is a subclass of itself
    only. *)
Theorem hierarchy_is_flat t b :
  t ∈ variants →
  (issubclass sampler t b = true ↔ b = t ∨ b = AbSamplerType) ∧
  (issubclass sampler AbSamplerType b = true ↔ b = AbSamplerType).
Proof.
  intros Ht. revert t Ht. apply Forall_forall.
  repeat apply Forall_cons_2; try apply Forall_nil_2;
    (split; (split; [destruct b; vm_compute; intros H;
                     first [discriminate H | by left | by right | done]
                    |intros H; try destruct H as [H|H]; subst b;
                     vm_compute; reflexivity])).
Qed.

Lemma hierarchy_is_flat_witness :
  MetropolisLocalPt ∈ variants ∧
  (issubclass sampler MetropolisLocalPt MetropolisLocal = true
   ↔ MetropolisLocal = MetropolisLocalPt ∨ MetropolisLocal = AbSamplerType).
Proof.
  assert (MetropolisLocalPt ∈ variants) as Hin by in_variants.
  split; [exact Hin|].
  exact (proj1 (hierarchy_is_flat MetropolisLocalPt MetropolisLocal Hin)).
Defined.

End Calls.
